(** * remotestorage/uploader.go: UploadFile and UploadDir

    A shallow embedding of the Google Cloud Storage uploader of dbtester.
    The storage backend and the filesystem are an explicit [World] of
    answers; every call the Go code makes is recorded as an [event] in a
    trace.  [UploadFile] is sequential.  [UploadDir] spawns one goroutine
    per walked file and then selects over two unbuffered channels; its
    goroutines and coordinator are a small-step machine driven by an
    explicit scheduler, so every interleaving is covered. *)

From Stdlib.Strings Require String Ascii Byte.
From stdpp Require Import base list strings relations.

#[local] Set Warnings "-clear-no-such-hyp".

Abbreviation byte := Corelib.Init.Byte.byte.

(** ** Errors, options, external world *)

(** A Go [error] value, observed through its [Error()] method. *)
Record error := mkError { Error : string }.

(** [fmt.Errorf] with a constant format string. *)
Definition Errorf (msg : string) : error := mkError msg.

Global Instance error_eq_dec : EqDecision error.
Proof. solve_decision. Defined.

(** [strings.Contains s substr]: [substr] occurs somewhere within [s]. *)
Fixpoint Contains (s substr : string) : bool :=
  if String.prefix substr s then true
  else match s with
       | EmptyString => false
       | String _ s' => Contains s' substr
       end.

(** The text both functions look for in a failed create-bucket call. *)
Definition alreadyOwned : string :=
  "You already own this bucket. Please select another name".

(** Modelled from the spec: the [Op] options bag, whose declaration is
    not in uploader.go ("Options: an optional configuration bag
    (currently: content-type string)").  The source reads
    [ret.ContentType] and compares it with the empty string. *)
Record Op := mkOp { ContentType : string }.

(** Modelled from the spec: [OpOption], a function that updates the
    options bag; its declaration is not in uploader.go. *)
Definition OpOption : Type := Op -> Op.


(** Modelled from the spec: [applyOpts], absent from uploader.go, runs
    every option in order over the bag. *)
Definition applyOpts (ret : Op) (opts : list OpOption) : Op :=
  fold_left (fun op opt => opt op) opts ret.

(** [&Op{}]: the zero value. *)
Definition emptyOp : Op := mkOp "".

(** [jwt.Config] is opaque to this file. *)
Record jwtConfig := mkJwt { jwtKey : list byte }.

Record GoogleCloudStorage := mkGCS {
  JSONKey : list byte;
  Project : string;
  Config  : jwtConfig
}.

(** The answers of the collaborators.  [walkRecursive] is a function of
    this repository that lives outside uploader.go; it is taken as a
    parameter.  Its Go result is a map from source path to destination
    key; the list gives the order in which [range] happens to visit it. *)
Record World := mkWorld {
  JWTConfigFromJSON : list byte -> jwtConfig + error;
  NewAdminClient    : string -> option error;
  CreateBucket      : string -> option error;
  NewClient         : option error;
  walkRecursive     : string -> list (string * string) + error;
  ReadFile          : string -> list byte + error;
  Write             : string -> string -> list byte -> option error;
  Close             : string -> string -> option error
}.

(** Every externally visible call, in program order. *)
Inductive event :=
| EvNewAdminClient (project : string)
| EvCreateBucket (bucket : string)
| EvNewClient
| EvWalk (root : string)
| EvLog (line : string)
| EvNewWriter (bucket object : string)
| EvSetContentType (bucket object ct : string)
| EvReadFile (path : string)
| EvWrite (bucket object : string) (bts : list byte)
| EvClose (bucket object : string)
| EvClientClose
| EvAdminClose.

Global Instance byte_eq_dec : EqDecision byte := Byte.byte_eq_dec.

Global Instance event_eq_dec : EqDecision event.
Proof. solve_decision. Defined.

(** ** NewGoogleCloudStorage *)

Definition NewGoogleCloudStorage (w : World) (key : list byte) (project : string)
  : GoogleCloudStorage + error :=
  match JWTConfigFromJSON w key with
  | inr err => inr err
  | inl conf => inl (mkGCS key project conf)
  end.

(** ** UploadFile *)

(** Lines 71-75 and 118-122: the error a create-bucket answer makes the
    caller return, if any.  An answer whose text contains [alreadyOwned]
    falls through like a success. *)
Definition bucketFailure (r : option error) : option error :=
  match r with
  | None => None
  | Some err =>
    if negb (Contains (Error err) alreadyOwned) then Some err else None
  end.

Definition UploadFile (w : World) (g : option GoogleCloudStorage)
    (bucket src dst : string) (opts : list OpOption)
  : option error * list event :=
  match g with
  | None => (Some (Errorf "GoogleCloudStorage is nil"), [])
  | Some gcs =>
    let ret := applyOpts emptyOp opts in
    let t1 := [EvNewAdminClient (Project gcs)] in
    match NewAdminClient w (Project gcs) with
    | Some err => (Some err, t1)
    | None =>
      (* defer admin.Close() *)
      let t2 := t1 ++ [EvCreateBucket bucket] in
      match bucketFailure (CreateBucket w bucket) with
      | Some err => (Some err, t2 ++ [EvAdminClose])
      | None =>
        let t3 := t2 ++ [EvNewClient] in
        match NewClient w with
        | Some err => (Some err, t3 ++ [EvAdminClose])
        | None =>
          (* defer client.Close() *)
          let closes := [EvClientClose; EvAdminClose] in
          let t4 := t3 ++ [EvNewWriter bucket dst]
                       ++ (if String.eqb (ContentType ret) ""
                           then []
                           else [EvSetContentType bucket dst (ContentType ret)])
                       ++ [EvLog ("UploadFile: " +:+ src +:+ " ---> " +:+ dst);
                           EvReadFile src] in
          match ReadFile w src with
          | inr err => (Some err, t4 ++ closes)
          | inl bts =>
            let t5 := t4 ++ [EvWrite bucket dst bts] in
            match Write w bucket dst bts with
            | Some err => (Some err, t5 ++ closes)
            | None =>
              let t6 := t5 ++ [EvClose bucket dst] in
              match Close w bucket dst with
              | Some err => (Some err, t6 ++ closes)
              | None => (None, t6 ++ [EvLog "UploadFile success"] ++ closes)
              end
            end
          end
        end
      end
    end
  end.

(** ** UploadDir: the goroutines *)

(** What a goroutine puts on a channel: a token on [donec] or an error
    on [errc]. *)
Inductive signal :=
| SigDone
| SigErr (err : error).

(** One atomic step of a goroutine: an external call, or a channel send. *)
Inductive action :=
| Do (ev : event)
| Send (sg : signal).

Global Instance signal_eq_dec : EqDecision signal.
Proof. solve_decision. Defined.

Global Instance action_eq_dec : EqDecision action.
Proof. solve_decision. Defined.

(** Lines 138-158: the closure run by [go func(src, dst string)], as the
    sequence of actions it performs under the answers of [w]. *)
Definition goBody (w : World) (bucket : string) (ret : Op) (src dst : string)
  : list action :=
  [Do (EvLog ("UploadDir: " +:+ src +:+ " ---> " +:+ dst));
   Do (EvNewWriter bucket dst)]
  ++ (if String.eqb (ContentType ret) ""
      then []
      else [Do (EvSetContentType bucket dst (ContentType ret))])
  ++ Do (EvReadFile src)
  :: match ReadFile w src with
     | inr err => [Send (SigErr err)]
     | inl bts =>
       Do (EvWrite bucket dst bts)
       :: match Write w bucket dst bts with
          | Some err => [Send (SigErr err)]
          | None =>
            Do (EvClose bucket dst)
            :: match Close w bucket dst with
               | Some err => [Send (SigErr err)]
               | None => [Send SigDone]
               end
          end
     end.

(** A running goroutine: the arguments of its closure and how many of its
    actions it has performed. *)
Record goroutine := mkGo { g_src : string; g_dst : string; g_pc : nat }.

(** Where the coordinator (the body of [UploadDir] itself) stands:
    in the [range] loop with [rest] still to visit, at the head of the
    [for cnt != num] loop, or returned. *)
Inductive cstate :=
| CSpawn (rest : list (string * string))
| CLoop (cnt num : nat)
| CReturn (r : option error).

Record state := mkState {
  coord : cstate;
  procs : list goroutine;
  trace : list event
}.

(** The scheduler's pick: let the coordinator run, let goroutine [i]
    perform its next external call, or let the coordinator's [select]
    meet the pending send of goroutine [i]. *)
Inductive choice :=
| Coordinator
| Goroutine (i : nat)
| Receive (i : nat).

Section Machine.
Variables (w : World) (bucket : string) (ret : Op).
Variable fmap : list (string * string).

(** The code of a goroutine, its next action, and the goroutine after
    that action. *)
Definition body (g : goroutine) : list action :=
  goBody w bucket ret (g_src g) (g_dst g).

Definition next (g : goroutine) : option action := body g !! g_pc g.

Definition advance (g : goroutine) : goroutine :=
  mkGo (g_src g) (g_dst g) (S (g_pc g)).

(** Lines 170-171 followed by the two deferred closes, and the deferred
    closes alone (the [return err] of line 166). *)
Definition success_tail : list event :=
  [EvLog "UploadDir success"; EvClientClose; EvAdminClose].

Definition failure_tail : list event := [EvClientClose; EvAdminClose].

(** One step of the machine; [None] when the pick is not enabled.
    Both channels are unbuffered, so a send happens only together with
    the coordinator's receive. *)
Definition step (c : choice) (s : state) : option state :=
  match c with
  | Coordinator =>
    match coord s with
    | CSpawn ((source, destination) :: rest) =>
      Some (mkState (CSpawn rest)
                    (procs s ++ [mkGo source destination 0]) (trace s))
    | CSpawn [] =>
      Some (mkState (CLoop 0 (length fmap)) (procs s) (trace s))
    | CLoop cnt num =>
      if Nat.eqb cnt num
      then Some (mkState (CReturn None) (procs s) (trace s ++ success_tail))
      else None
    | CReturn _ => None
    end
  | Goroutine i =>
    match procs s !! i with
    | Some g =>
      match next g with
      | Some (Do ev) =>
        Some (mkState (coord s) (<[i := advance g]> (procs s))
                      (trace s ++ [ev]))
      | _ => None
      end
    | None => None
    end
  | Receive i =>
    match coord s, procs s !! i with
    | CLoop cnt num, Some g =>
      if Nat.eqb cnt num then None
      else match next g with
           | Some (Send SigDone) =>
             Some (mkState (CLoop (S cnt) num)
                           (<[i := advance g]> (procs s)) (trace s))
           | Some (Send (SigErr err)) =>
             Some (mkState (CReturn (Some err))
                           (<[i := advance g]> (procs s))
                           (trace s ++ failure_tail))
           | _ => None
           end
    | _, _ => None
    end
  end.

(** Run a schedule; picks that are not enabled are skipped. *)
Fixpoint run (sched : list choice) (s : state) : state :=
  match sched with
  | [] => s
  | c :: sched' =>
    match step c s with
    | Some s' => run sched' s'
    | None => run sched' s
    end
  end.

(** Any number of enabled steps. *)
Definition steps : relation state :=
  rtc (fun s s' => exists c, step c s = Some s').
End Machine.

(** What the caller of [UploadDir] has got back so far. *)
Definition result (s : state) : option (option error) :=
  match coord s with
  | CReturn r => Some r
  | _ => None
  end.

(** A return before any goroutine exists. *)
Definition returned (r : option error) (tr : list event) : state :=
  mkState (CReturn r) [] tr.

(** ** UploadDir *)

(** The events of lines 111-131 when nothing fails. *)
Definition prologue (project bucket src : string) : list event :=
  [EvNewAdminClient project; EvCreateBucket bucket; EvNewClient; EvWalk src].

(** Lines 104-172 under the schedule [sched].  The parameter [dst] is not
    used by the Go code: the closure's own [dst] shadows it. *)
Definition UploadDir (w : World) (g : option GoogleCloudStorage)
    (bucket src dst : string) (opts : list OpOption) (sched : list choice)
  : state :=
  match g with
  | None => returned (Some (Errorf "GoogleCloudStorage is nil")) []
  | Some gcs =>
    let ret := applyOpts emptyOp opts in
    let t1 := [EvNewAdminClient (Project gcs)] in
    match NewAdminClient w (Project gcs) with
    | Some err => returned (Some err) t1
    | None =>
      (* defer admin.Close() *)
      let t2 := t1 ++ [EvCreateBucket bucket] in
      match bucketFailure (CreateBucket w bucket) with
      | Some err => returned (Some err) (t2 ++ [EvAdminClose])
      | None =>
        let t3 := t2 ++ [EvNewClient] in
        match NewClient w with
        | Some err => returned (Some err) (t3 ++ [EvAdminClose])
        | None =>
          (* defer client.Close() *)
          let t4 := t3 ++ [EvWalk src] in
          match walkRecursive w src with
          | inr err => returned (Some err) (t4 ++ [EvClientClose; EvAdminClose])
          | inl fmap =>
            run w bucket ret fmap sched (mkState (CSpawn fmap) [] t4)
          end
        end
      end
    end
  end.

(** ** Observations: what the claims speak about *)

(** The two kinds of action, told apart. *)
Definition doing (a : action) : option event :=
  match a with Do ev => Some ev | Send _ => None end.

Definition sending (a : action) : option signal :=
  match a with Send sg => Some sg | Do _ => None end.

(** The external calls among a run of actions, and the signals sent. *)
Definition calls (l : list action) : list event := omap doing l.
Definition sends (l : list action) : list signal := omap sending l.

(** The signal a goroutine ends with, read off the three answers. *)
Definition goSignal (w : World) (bucket src dst : string) : signal :=
  match ReadFile w src with
  | inr err => SigErr err
  | inl bts =>
    match Write w bucket dst bts with
    | Some err => SigErr err
    | None =>
      match Close w bucket dst with
      | Some err => SigErr err
      | None => SigDone
      end
    end
  end.

Section Observations.
Variables (w : World) (bucket : string) (ret : Op).
Variable fmap : list (string * string).
Variable pre : list event.

Local Abbreviation body := (body w bucket ret).

(** The walked entry a goroutine was spawned for. *)
Definition key (g : goroutine) : string * string := (g_src g, g_dst g).

(** The calls a goroutine has made and the signals it has handed over. *)
Definition performed (g : goroutine) : list event :=
  calls (take (g_pc g) (body g)).
Definition delivered (g : goroutine) : list signal :=
  sends (take (g_pc g) (body g)).

(** The signal the code of a goroutine ends with. *)
Definition verdict (g : goroutine) : signal :=
  goSignal w bucket (g_src g) (g_dst g).

(** The entries the [range] loop has still to visit. *)
Definition unspawned (c : cstate) : list (string * string) :=
  match c with CSpawn rest => rest | _ => [] end.

(** What the coordinator itself has appended to the trace. *)
Definition coord_tail (c : cstate) : list event :=
  match c with
  | CReturn None => success_tail
  | CReturn (Some _) => failure_tail
  | _ => []
  end.

(** How the coordinator's position relates to the signals handed over. *)
Definition coord_ok (c : cstate) (sigs : list signal) : Prop :=
  match c with
  | CSpawn _ => sigs = []
  | CLoop cnt num => num = length fmap /\ sigs ≡ₚ replicate cnt SigDone
  | CReturn None => sigs ≡ₚ replicate (length fmap) SigDone
  | CReturn (Some err) =>
    exists cnt, cnt < length fmap /\ sigs ≡ₚ SigErr err :: replicate cnt SigDone
  end.

(** What every reachable state satisfies: no goroutine is beyond its
    code; the goroutines are the entries visited so far; the coordinator
    agrees with the signals handed over; and the trace is, up to order,
    the sequential part, the coordinator's closing events and the calls
    the goroutines have made. *)
Record Inv (s : state) : Prop := mkInv {
  inv_pc : Forall (fun g => g_pc g <= length (body g)) (procs s);
  inv_keys : (key <$> procs s) ++ unspawned (coord s) = fmap;
  inv_coord : coord_ok (coord s) (procs s ≫= delivered);
  inv_trace :
    trace s ≡ₚ pre ++ coord_tail (coord s) ++ (procs s ≫= performed)
}.

(** The state at line 136, before the first [go] statement. *)
Definition start : state := mkState (CSpawn fmap) [] pre.

(** The actions a goroutine has left, and the steps the coordinator has
    left (a spawn adds a goroutine of at most seven actions). *)
Definition remaining (g : goroutine) : nat := length (body g) - g_pc g.

Definition coord_fuel (c : cstate) : nat :=
  match c with
  | CSpawn rest => 8 * length rest + 2
  | CLoop _ _ => 1
  | CReturn _ => 0
  end.

(** An upper bound on the number of steps still possible. *)
Definition fuel (s : state) : nat :=
  coord_fuel (coord s) + sum_list_with remaining (procs s).
End Observations.

(** Lines 105-134 all went through: the receiver is [gcs], both clients
    were built, the bucket is there, and the walker answered [fmap]. *)
Definition enters (w : World) (g : option GoogleCloudStorage)
    (bucket src : string) (gcs : GoogleCloudStorage)
    (fmap : list (string * string)) : Prop :=
  g = Some gcs
  /\ NewAdminClient w (Project gcs) = None
  /\ bucketFailure (CreateBucket w bucket) = None
  /\ NewClient w = None
  /\ walkRecursive w src = inl fmap.

(** The events that touch a sink or a local file. *)
Definition isUpload (ev : event) : bool :=
  match ev with
  | EvNewWriter _ _ | EvSetContentType _ _ _ | EvReadFile _
  | EvWrite _ _ _ | EvClose _ _ => true
  | _ => false
  end.

(** Writes to a sink, and assignments of a sink's content type. *)
Definition isWrite (ev : event) : bool :=
  match ev with EvWrite _ _ _ => true | _ => false end.

Definition isSetContentType (ev : event) : bool :=
  match ev with EvSetContentType _ _ _ => true | _ => false end.

(** A write seen as (bucket, destination key, content). *)
Definition written (ev : event) : option (string * string * list byte) :=
  match ev with
  | EvWrite b d bts => Some (b, d, bts)
  | _ => None
  end.

Definition writes (tr : list event) : list (string * string * list byte) :=
  omap written tr.

(** The write a walked entry stands for: the content of its source file
    under its destination key. *)
Definition fileWrite (w : World) (bucket : string) (kv : string * string)
  : list (string * string * list byte) :=
  match ReadFile w kv.1 with
  | inl bts => [(bucket, kv.2, bts)]
  | inr _ => []
  end.

(** The sink of [bucket]/[dst] gets [ct] assigned exactly once in [tr],
    with no write before the assignment. *)
Definition assignedOnce (bucket dst ct : string) (tr : list event) : Prop :=
  exists pre post,
    tr = pre ++ EvSetContentType bucket dst ct :: post
    /\ Forall (fun ev => isSetContentType ev = false /\ isWrite ev = false) pre
    /\ Forall (fun ev => isSetContentType ev = false) post.

(** The three positions the coordinator can have when the walker found
    nothing: leaving the [range] loop, at the loop head with [0 = 0],
    returned with success. *)
Definition idle (c : cstate) : Prop :=
  c = CSpawn [] \/ c = CLoop 0 0 \/ c = CReturn None.

(** The goroutines of a batch, none of which has taken a step. *)
Definition spawned (fmap : list (string * string)) : list goroutine :=
  (fun kv => mkGo kv.1 kv.2 0) <$> fmap.

(** The schedule that spawns a batch of [n], lets goroutine [i] alone run
    up to its send, and has the coordinator receive from it. *)
Definition rush (n i : nat) : list choice :=
  replicate (S n) Coordinator ++ replicate 7 (Goroutine i) ++ [Receive i].


(** The world in which create-bucket answers [r] for every name. *)
Definition withCreateBucket (w : World) (r : option error) : World :=
  mkWorld (JWTConfigFromJSON w) (NewAdminClient w) (fun _ => r)
          (NewClient w) (walkRecursive w) (ReadFile w) (Write w) (Close w).





(** ** Observations on clients, uploads and order *)

(** The deferred closes found in a trace. *)
Definition closes (tr : list event) : list event :=
  filter (fun ev => ev = EvClientClose \/ ev = EvAdminClose) tr.

(** The calls on sinks and local files found in a trace. *)
Definition uploads (tr : list event) : list event :=
  filter (fun ev => isUpload ev) tr.

(** A constructor call gave no error. *)
Definition built (r : option error) : bool :=
  match r with None => true | Some _ => false end.

(** Line 65 / 112 built the admin client; lines 78 / 125 were reached
    and built the data client. *)
Definition adminOpened (w : World) (gcs : GoogleCloudStorage) : bool :=
  built (NewAdminClient w (Project gcs)).

Definition clientOpened (w : World) (gcs : GoogleCloudStorage)
    (bucket : string) : bool :=
  adminOpened w gcs && built (bucketFailure (CreateBucket w bucket))
  && built (NewClient w).

(** The closes both functions owe when they return: the data client
    first, then the admin client, each only if it was built. *)
Definition dueCloses (w : World) (gcs : GoogleCloudStorage) (bucket : string)
  : list event :=
  (if clientOpened w gcs bucket then [EvClientClose] else [])
  ++ (if adminOpened w gcs then [EvAdminClose] else []).

(** An event a goroutine can produce: a log line or an upload call. *)
Definition isGoroutineEvent (ev : event) : bool :=
  match ev with
  | EvLog _ => true
  | _ => isUpload ev
  end.





(** ** Concrete worlds used by the examples *)

Module Samples.
Definition data (s : string) : list byte := String.list_byte_of_string s.

Definition gcs : GoogleCloudStorage :=
  mkGCS (data "key") "proj" (mkJwt (data "key")).

Definition tree : list (string * string) :=
  [("/d/a.txt", "a.txt"); ("/d/sub/b.txt", "sub/b.txt")].

(** Two files, everything succeeds. *)
Definition fine : World := {|
  JWTConfigFromJSON := fun k => inl (mkJwt k);
  NewAdminClient := fun _ => None;
  CreateBucket := fun _ => None;
  NewClient := None;
  walkRecursive := fun _ => inl tree;
  ReadFile := fun p => inl (data p);
  Write := fun _ _ _ => None;
  Close := fun _ _ => None
|}.

Definition denied : error := Errorf "open /d/a.txt: permission denied".

(** As [fine], but /d/a.txt cannot be read. *)
Definition unreadable : World := {|
  JWTConfigFromJSON := fun k => inl (mkJwt k);
  NewAdminClient := fun _ => None;
  CreateBucket := fun _ => None;
  NewClient := None;
  walkRecursive := fun _ => inl tree;
  ReadFile := fun p => if String.eqb p "/d/a.txt" then inr denied
                       else inl (data p);
  Write := fun _ _ _ => None;
  Close := fun _ _ => None
|}.

Definition conflict : error :=
  Errorf ("googleapi: Error 409: You already own this bucket. "
          +:+ "Please select another name., conflict").

Definition forbidden : error := Errorf "googleapi: Error 403: Forbidden".

(** As [fine], with create-bucket answering [err]. *)
Definition refusing (err : error) : World := {|
  JWTConfigFromJSON := fun k => inl (mkJwt k);
  NewAdminClient := fun _ => None;
  CreateBucket := fun _ => Some err;
  NewClient := None;
  walkRecursive := fun _ => inl tree;
  ReadFile := fun p => inl (data p);
  Write := fun _ _ _ => None;
  Close := fun _ _ => None
|}.

(** As [fine], over an empty directory. *)
Definition bare : World := {|
  JWTConfigFromJSON := fun k => inl (mkJwt k);
  NewAdminClient := fun _ => None;
  CreateBucket := fun _ => None;
  NewClient := None;
  walkRecursive := fun _ => inl [];
  ReadFile := fun p => inl (data p);
  Write := fun _ _ _ => None;
  Close := fun _ _ => None
|}.

(** Spawn both goroutines, reach the loop, and let goroutine 0 run up to
    its send. *)
Definition untilSend : list choice :=
  [Coordinator; Coordinator; Coordinator;
   Goroutine 0; Goroutine 0; Goroutine 0; Goroutine 0; Goroutine 0].

(** A complete run of the two-file tree. *)
Definition roundRobin : list choice :=
  [Coordinator; Goroutine 0; Coordinator; Goroutine 1; Coordinator;
   Goroutine 0; Goroutine 1; Goroutine 0; Goroutine 1; Goroutine 0;
   Goroutine 1; Goroutine 0; Goroutine 1; Receive 1; Receive 0;
   Coordinator].

End Samples.

(** * Properties *)

(** ** strings.Contains *)

Lemma prefix_app (p s : string) : String.prefix p (p +:+ s) = true.
Proof. induction p as [|c p IH].
  - by destruct s.
  - change (String c p +:+ s) with (String c (p +:+ s)). cbn.
    destruct (Ascii.ascii_dec c c); [done|congruence].
Qed.

Lemma prefix_split (p s : string) :
  String.prefix p s = true -> exists t, s = p +:+ t.
Proof.
  revert s. induction p as [|c p IH]; intros s H.
  - by exists s.
  - destruct s as [|d s]; [done|]. cbn in H.
    destruct (Ascii.ascii_dec c d) as [->|]; [|done].
    destruct (IH _ H) as [t ->]. by exists t.
Qed.

(** [Contains] is substring occurrence. *)
Lemma Contains_eq (s sub : string) :
  Contains s sub
  = if String.prefix sub s then true
    else match s with
         | EmptyString => false
         | String _ s' => Contains s' sub
         end.
Proof. by destruct s. Qed.

Lemma Contains_spec (s sub : string) :
  Contains s sub = true <-> exists a b, s = a +:+ sub +:+ b.
Proof.
  split.
  - induction s as [|c s IH]; rewrite Contains_eq.
    + destruct (String.prefix sub "") eqn:E; [|done].
      intros _. apply prefix_split in E as [t E]. exists "", t. exact E.
    + destruct (String.prefix sub (String c s)) eqn:E.
      * intros _. apply prefix_split in E as [t E]. exists "", t. exact E.
      * intros H. destruct (IH H) as (a & b & ->). by exists (String c a), b.
  - intros (a & b & ->). induction a as [|c a IH].
    + change ("" +:+ sub +:+ b) with (sub +:+ b).
      by rewrite Contains_eq, prefix_app.
    + change (String c a +:+ sub +:+ b) with (String c (a +:+ sub +:+ b)).
      rewrite Contains_eq. destruct (String.prefix _ _); [done|exact IH].
Qed.

(** ** The shape of a goroutine body *)

Lemma calls_app l1 l2 : calls (l1 ++ l2) = calls l1 ++ calls l2.
Proof. apply omap_app. Qed.

Lemma sends_app l1 l2 : sends (l1 ++ l2) = sends l1 ++ sends l2.
Proof. apply omap_app. Qed.

Lemma calls_Do evs : calls (Do <$> evs) = evs.
Proof. induction evs; simpl; [done|]. unfold calls in *. simpl. by f_equal. Qed.

Lemma sends_Do evs : sends (Do <$> evs) = [].
Proof. induction evs; simpl; [done|]. unfold sends in *. by simpl. Qed.

(** Every body is a run of external calls closed by one send. *)
Lemma goBody_split w bucket ret src dst :
  goBody w bucket ret src dst
  = (Do <$> calls (goBody w bucket ret src dst))
    ++ [Send (goSignal w bucket src dst)].
Proof.
  unfold goBody, goSignal.
  destruct (String.eqb (ContentType ret) ""), (ReadFile w src) as [bts|e];
    [destruct (Write w bucket dst bts), (Close w bucket dst)| |
     destruct (Write w bucket dst bts), (Close w bucket dst)| ]; reflexivity.
Qed.

Lemma goBody_length w bucket ret src dst :
  3 <= length (goBody w bucket ret src dst) <= 7.
Proof.
  unfold goBody.
  destruct (String.eqb (ContentType ret) ""), (ReadFile w src) as [bts|e];
    [destruct (Write w bucket dst bts), (Close w bucket dst)| |
     destruct (Write w bucket dst bts), (Close w bucket dst)| ];
    simpl; lia.
Qed.

(** Lists of the shape "calls, then one send", looked up by position. *)
Lemma shape_lookup_Do (evs : list event) (sg : signal) (n : nat) (ev : event) :
  ((Do <$> evs) ++ [Send sg]) !! n = Some (Do ev) ->
  n < length evs /\ evs !! n = Some ev.
Proof.
  intros H. destruct (decide (n < length evs)) as [Hlt|Hge].
  - split; [done|]. rewrite lookup_app_l in H by by rewrite length_fmap.
    rewrite list_lookup_fmap in H. destruct (evs !! n); naive_solver.
  - rewrite lookup_app_r in H by (rewrite length_fmap; lia).
    rewrite length_fmap in H.
    destruct (n - length evs) as [|k]; simpl in H; [congruence|done].
Qed.

Lemma shape_lookup_Send (evs : list event) (sg sg' : signal) (n : nat) :
  ((Do <$> evs) ++ [Send sg]) !! n = Some (Send sg') ->
  n = length evs /\ sg' = sg.
Proof.
  intros H. destruct (decide (n < length evs)) as [Hlt|Hge].
  - rewrite lookup_app_l in H by by rewrite length_fmap.
    rewrite list_lookup_fmap in H. destruct (evs !! n); naive_solver.
  - rewrite lookup_app_r in H by (rewrite length_fmap; lia).
    rewrite length_fmap in H.
    destruct (n - length evs) as [|k] eqn:E; simpl in H; [|done].
    split; [lia|congruence].
Qed.

Global Arguments goBody : simpl never.

(** ** Updating one slot of a list *)

Lemma lookup_insert_split {A} (l : list A) (i : nat) (x y : A) :
  l !! i = Some x ->
  exists l1 l2, l = l1 ++ x :: l2 /\ <[i := y]> l = l1 ++ y :: l2 /\ length l1 = i.
Proof.
  intros H. apply list_elem_of_split_length in H as (l1 & l2 & -> & ->).
  exists l1, l2. split; [done|]. split; [|done].
  by rewrite insert_app_r_alt, Nat.sub_diag.
Qed.

(** ** Invariants of the machine *)

Section MachineFacts.
Variables (w : World) (bucket : string) (ret : Op).
Variable fmap : list (string * string).
Variable pre : list event.

Local Abbreviation body := (body w bucket ret).
Local Abbreviation next := (next w bucket ret).
Local Abbreviation step := (step w bucket ret fmap).
Local Abbreviation run := (run w bucket ret fmap).
Local Abbreviation steps := (steps w bucket ret fmap).
Local Abbreviation performed := (performed w bucket ret).
Local Abbreviation delivered := (delivered w bucket ret).
Local Abbreviation verdict := (verdict w bucket).
Local Abbreviation coord_ok := (coord_ok fmap).
Local Abbreviation Inv := (Inv w bucket ret fmap pre).
Local Abbreviation start := (start fmap pre).
Local Abbreviation remaining := (remaining w bucket ret).
Local Abbreviation fuel := (fuel w bucket ret).

Lemma body_split g :
  body g = (Do <$> calls (body g)) ++ [Send (verdict g)].
Proof. apply goBody_split. Qed.

Lemma body_length g : length (body g) = S (length (calls (body g))).
Proof.
  rewrite body_split at 1. rewrite length_app, length_fmap. simpl. lia.
Qed.

Lemma body_at_send g :
  body g !! length (calls (body g)) = Some (Send (verdict g)).
Proof.
  pose proof (body_split g) as E.
  remember (calls (body g)) as evs eqn:Hevs. rewrite E.
  rewrite lookup_app_r by by rewrite length_fmap.
  by rewrite length_fmap, Nat.sub_diag.
Qed.

Lemma next_Do g ev :
  next g = Some (Do ev) ->
  S (g_pc g) < length (body g)
  /\ performed (advance g) = performed g ++ [ev]
  /\ delivered (advance g) = delivered g.
Proof.
  unfold next, performed, delivered. intros H.
  change (body (advance g)) with (body g).
  change (g_pc (advance g)) with (S (g_pc g)).
  rewrite (take_S_r _ _ _ H), calls_app, sends_app.
  split; [|split; [done|apply app_nil_r]].
  rewrite body_split in H. apply shape_lookup_Do in H as [H _].
  rewrite body_length. lia.
Qed.

Lemma next_Send g sg :
  next g = Some (Send sg) ->
  S (g_pc g) = length (body g)
  /\ sg = verdict g
  /\ performed (advance g) = performed g
  /\ delivered g = []
  /\ delivered (advance g) = [sg].
Proof.
  unfold next, performed, delivered. intros H.
  change (body (advance g)) with (body g).
  change (g_pc (advance g)) with (S (g_pc g)).
  rewrite (take_S_r _ _ _ H), calls_app, sends_app.
  rewrite body_split in H. apply shape_lookup_Send in H as [Hn ->].
  assert (sends (take (g_pc g) (body g)) = []) as ->.
  { rewrite body_split, Hn.
    rewrite take_app_length' by by rewrite length_fmap.
    apply sends_Do. }
  rewrite body_length, Hn.
  split; [done|]. split; [done|]. split; [apply app_nil_r|done].
Qed.

(** A goroutine is either still running, with nothing delivered, or
    past its last action, with exactly its verdict delivered. *)
Lemma delivered_cases g :
  g_pc g <= length (body g) ->
  (g_pc g < length (body g) /\ delivered g = [])
  \/ (g_pc g = length (body g) /\ delivered g = [verdict g]
      /\ performed g = calls (body g)).
Proof.
  intros Hle. unfold delivered, performed.
  destruct (decide (g_pc g = length (body g))) as [E|NE].
  - right. split; [done|]. rewrite E, take_ge by done.
    split; [|done]. rewrite body_split at 1.
    by rewrite sends_app, sends_Do.
  - left. split; [lia|]. rewrite body_split.
    rewrite body_length in *.
    rewrite take_app_le by (rewrite length_fmap; lia).
    by rewrite <- fmap_take, sends_Do.
Qed.

Lemma Inv_start : Inv start.
Proof.
  split; simpl; [constructor|done|done|by rewrite app_nil_r].
Qed.

Lemma delivered_le l :
  Forall (fun g => g_pc g <= length (body g)) l ->
  length (l ≫= delivered) <= length l.
Proof.
  induction 1 as [|g l Hg _ IH]; [done|].
  rewrite bind_cons, length_app. simpl.
  destruct (delivered_cases g Hg) as [[_ ->]|(_ & -> & _)]; simpl; lia.
Qed.

(** Fewer signals than goroutines: one of them has not finished. *)
Lemma unfinished_exists l :
  Forall (fun g => g_pc g <= length (body g)) l ->
  length (l ≫= delivered) < length l ->
  exists i g, l !! i = Some g /\ g_pc g < length (body g).
Proof.
  induction 1 as [|g l Hg Hl IH]; [simpl; lia|].
  rewrite bind_cons, length_app.
  destruct (delivered_cases g Hg) as [[Hlt ->]|(_ & -> & _)]; simpl; intros H.
  - by exists 0, g.
  - destruct IH as (i & g' & ? & ?); [lia|]. by exists (S i), g'.
Qed.

(** As many signals as goroutines: every one has delivered its verdict. *)
Lemma all_finished l :
  Forall (fun g => g_pc g <= length (body g)) l ->
  length (l ≫= delivered) = length l ->
  Forall (fun g => g_pc g = length (body g) /\ delivered g = [verdict g]
                   /\ performed g = calls (body g)) l.
Proof.
  induction 1 as [|g l Hg Hl IH]; [constructor|].
  rewrite bind_cons, length_app. pose proof (delivered_le l Hl) as Hle.
  destruct (delivered_cases g Hg) as [[Hlt ->]|(Hpc & Hd & Hpf)];
    simpl; intros Hlen.
  - lia.
  - rewrite Hd in Hlen. simpl in Hlen. constructor; [done|]. apply IH. lia.
Qed.
Lemma step_inv_goroutine i g l (P : list goroutine -> Prop) :
  l !! i = Some g ->
  (forall l1 l2, l = l1 ++ g :: l2 -> P (l1 ++ advance g :: l2)) ->
  P (<[i := advance g]> l).
Proof.
  intros Hi HP.
  destruct (lookup_insert_split l i g (advance g) Hi) as (l1 & l2 & E & -> & _).
  by apply HP.
Qed.

Lemma pc_advance l1 g l2 :
  Forall (fun g => g_pc g <= length (body g)) (l1 ++ g :: l2) ->
  S (g_pc g) <= length (body g) ->
  Forall (fun g => g_pc g <= length (body g)) (l1 ++ advance g :: l2).
Proof.
  intros H Hle. apply Forall_app in H as [H1 H2].
  apply Forall_cons in H2 as [_ H2].
  apply Forall_app. split; [done|]. by constructor.
Qed.

Lemma signals_bound s :
  Inv s -> length (procs s ≫= delivered) <= length fmap.
Proof.
  intros [Hpc Hk _ _]. pose proof (delivered_le _ Hpc) as Hle.
  rewrite <- Hk, length_app, length_fmap. lia.
Qed.

(** Every step keeps the invariant. *)
Lemma Inv_step c s s' : Inv s -> step c s = Some s' -> Inv s'.
Proof.
  intros HI Hs. pose proof (signals_bound s HI) as Hb.
  destruct HI as [Hpc Hk Hc Ht].
  destruct s as [co ps tr]. simpl in *.
  destruct c as [|i|i]; simpl in Hs.
  - destruct co as [[|[source destination] rest]|cnt num|r]; simpl in *.
    + injection Hs as <-. split; simpl; try done.
      split; [done|]. by rewrite Hc.
    + injection Hs as <-. split; simpl.
      * apply Forall_app. split; [done|]. repeat constructor. simpl. lia.
      * by rewrite fmap_app, <- app_assoc.
      * by rewrite bind_app, Hc.
      * rewrite bind_app, Ht, bind_singleton. unfold performed. simpl.
        by rewrite app_nil_r.
    + destruct (Nat.eqb_spec cnt num) as [->|]; [|done].
      injection Hs as <-. destruct Hc as [-> Hc]. split; simpl; try done.
      rewrite Ht. solve_Permutation.
    + done.
  - destruct (ps !! i) as [g|] eqn:Hi; [|done].
    destruct (next g) as [[ev|sg]|] eqn:Hn; try done.
    injection Hs as <-.
    destruct (next_Do g ev Hn) as (Hlt & Hpf & Hdl).
    apply (step_inv_goroutine i g ps
             (fun l => Inv (mkState co l (tr ++ [ev]))) Hi).
    intros l1 l2 ->. split; simpl.
    + apply pc_advance; [done|lia].
    + by rewrite fmap_app, fmap_cons in *.
    + rewrite bind_app, bind_cons in *. by rewrite Hdl.
    + rewrite bind_app, bind_cons in *. rewrite Hpf, Ht. solve_Permutation.
  - destruct co as [rest|cnt num|r]; try done.
    destruct (ps !! i) as [g|] eqn:Hi; [|done].
    destruct (Nat.eqb_spec cnt num) as [|Hne]; [done|].
    destruct (next g) as [[ev|sg]|] eqn:Hn; try done.
    destruct (next_Send g sg Hn) as (Hlen & _ & Hpf & Hd0 & Hd1).
    destruct Hc as [-> Hc].
    assert (cnt < length fmap) as Hcnt.
    { apply Permutation_length in Hc. rewrite length_replicate in Hc. lia. }
    destruct sg as [|err]; injection Hs as <-.
    + apply (step_inv_goroutine i g ps
               (fun l => Inv (mkState (CLoop (S cnt) (length fmap)) l tr)) Hi).
      intros l1 l2 ->. split; simpl.
      * apply pc_advance; [done|lia].
      * by rewrite fmap_app, fmap_cons in *.
      * split; [done|]. rewrite bind_app, bind_cons in *.
        rewrite Hd0 in Hc. rewrite Hd1. simpl in *.
        rewrite <- Hc. solve_Permutation.
      * rewrite bind_app, bind_cons in *. by rewrite Hpf.
    + apply (step_inv_goroutine i g ps
               (fun l => Inv (mkState (CReturn (Some err)) l
                                      (tr ++ failure_tail))) Hi).
      intros l1 l2 ->. split; simpl.
      * apply pc_advance; [done|lia].
      * by rewrite fmap_app, fmap_cons in *.
      * exists cnt. split; [done|]. rewrite bind_app, bind_cons in *.
        rewrite Hd0 in Hc. rewrite Hd1. simpl in *.
        rewrite <- Hc. solve_Permutation.
      * rewrite bind_app, bind_cons in *. rewrite Hpf, Ht. solve_Permutation.
Qed.

Lemma Inv_steps s s' : Inv s -> steps s s' -> Inv s'.
Proof.
  intros HI Hs. induction Hs as [|s1 s2 s3 [c Hc] _ IH]; [done|].
  apply IH. by apply (Inv_step c s1).
Qed.

Lemma run_steps sched s : steps s (run sched s).
Proof.
  revert s. induction sched as [|c sched IH]; intros s; simpl.
  - apply rtc_refl.
  - destruct (step c s) as [s'|] eqn:E; [|apply IH].
    eapply rtc_l; [by exists c|apply IH].
Qed.

Lemma Inv_run sched : Inv (run sched start).
Proof. eapply Inv_steps; [apply Inv_start|apply run_steps]. Qed.

(** *** Termination and progress *)

Lemma remaining_advance g a :
  next g = Some a -> S (remaining (advance g)) = remaining g.
Proof.
  unfold next, remaining. intros H. apply lookup_lt_Some in H.
  change (body (advance g)) with (body g).
  change (g_pc (advance g)) with (S (g_pc g)). lia.
Qed.

Lemma fuel_advance i g a l :
  l !! i = Some g -> next g = Some a ->
  S (sum_list_with remaining (<[i := advance g]> l))
  = sum_list_with remaining l.
Proof.
  intros Hi Hn.
  destruct (lookup_insert_split l i g (advance g) Hi) as (l1 & l2 & -> & -> & _).
  rewrite !sum_list_with_app. simpl.
  rewrite <- (remaining_advance g a Hn). lia.
Qed.

(** Every step uses up fuel, so no run is infinite. *)
Lemma step_fuel c s s' : step c s = Some s' -> fuel s' < fuel s.
Proof.
  destruct s as [co ps tr]. unfold fuel. destruct c as [|i|i]; simpl.
  - destruct co as [[|[source destination] rest]|cnt num|r]; simpl.
    + intros [= <-]. simpl. lia.
    + intros [= <-]. simpl. rewrite sum_list_with_app.
      cbn [sum_list_with]. unfold remaining at 2, body.
      cbn [g_src g_dst g_pc].
      pose proof (goBody_length w bucket ret source destination). lia.
    + destruct (Nat.eqb cnt num); [|done]. intros [= <-]. simpl. lia.
    + done.
  - destruct (ps !! i) as [g|] eqn:Hi; [|done].
    destruct (next g) as [[ev|sg]|] eqn:Hn; try done.
    intros [= <-]. simpl. rewrite <- (fuel_advance i g _ ps Hi Hn). lia.
  - destruct co as [rest|cnt num|r]; try done.
    destruct (ps !! i) as [g|] eqn:Hi; [|done].
    destruct (Nat.eqb cnt num); [done|].
    destruct (next g) as [[ev|[|err]]|] eqn:Hn; try done;
      intros [= <-]; simpl; rewrite <- (fuel_advance i g _ ps Hi Hn); lia.
Qed.

(** Until the coordinator has returned, some pick is enabled: the
    machine cannot deadlock before [UploadDir] returns. *)
Lemma progress s :
  Inv s -> result s = None -> exists c s', step c s = Some s'.
Proof.
  intros HI Hr. pose proof (signals_bound s HI) as Hb.
  destruct HI as [Hpc Hk Hc Ht].
  destruct s as [co ps tr]. unfold result in Hr. simpl in *.
  destruct co as [[|[source destination] rest]|cnt num|r]; [| | |done].
  - exists Coordinator. simpl. eauto.
  - exists Coordinator. simpl. eauto.
  - destruct Hc as [-> Hc].
    destruct (decide (cnt = length fmap)) as [->|Hne].
    + exists Coordinator. simpl. rewrite Nat.eqb_refl. eauto.
    + assert (length (ps ≫= delivered) = cnt) as Hlen.
      { by rewrite Hc, length_replicate. }
      assert (length ps = length fmap) as Hps.
      { by rewrite <- Hk, app_nil_r, length_fmap. }
      destruct (unfinished_exists ps Hpc) as (i & g & Hi & Hlt); [lia|].
      destruct (lookup_lt_is_Some_2 (body g) (g_pc g) Hlt) as [a Ha].
      destruct a as [ev|sg].
      * exists (Goroutine i). simpl. rewrite Hi. unfold next. rewrite Ha. eauto.
      * exists (Receive i). simpl. rewrite Hi.
        destruct (Nat.eqb_spec cnt (length fmap)) as [|_]; [done|].
        unfold next. rewrite Ha. destruct sg; eauto.
Qed.

(** From every state the invariant allows, some schedule makes
    [UploadDir] return. *)
Lemma returns_from s :
  Inv s -> exists sched r, result (run sched s) = Some r.
Proof.
  remember (fuel s) as n eqn:Hn. revert s Hn.
  induction (lt_wf n) as [n _ IH]. intros s -> HI.
  destruct (result s) as [r|] eqn:Hr.
  - by exists [], r.
  - destruct (progress s HI Hr) as (c & s' & Hs).
    destruct (IH (fuel s') (step_fuel c s s' Hs) s' eq_refl
                 (Inv_step c s s' HI Hs)) as (sched & r & Hres).
    exists (c :: sched), r. simpl. by rewrite Hs.
Qed.

(** A run of [n] enabled steps is no longer than the fuel. *)
Lemma nsteps_fuel n s s' :
  nsteps (fun s s' => exists c, step c s = Some s') n s s' ->
  n + fuel s' <= fuel s.
Proof.
  induction 1 as [|n s1 s2 s3 [c Hc] _ IH]; [lia|].
  apply step_fuel in Hc. lia.
Qed.

(** Once returned, the coordinator never moves again and nothing more is
    received. *)
Lemma step_after_return c s s' r :
  coord s = CReturn r -> step c s = Some s' ->
  coord s' = CReturn r /\ (exists i, c = Goroutine i).
Proof.
  destruct s as [co ps tr]. simpl. intros ->.
  destruct c as [|i|i]; simpl; [done| |done].
  destruct (ps !! i) as [g|]; [|done].
  destruct (next g) as [[ev|sg]|]; try done.
  intros [= <-]. eauto.
Qed.

Lemma result_stable sched s r :
  result s = Some r -> result (run sched s) = Some r.
Proof.
  revert s. induction sched as [|c sched IH]; intros s Hr; simpl; [done|].
  destruct (step c s) as [s'|] eqn:E; [|by apply IH].
  apply IH. unfold result in *. destruct (coord s) as [| |r0] eqn:Ec; try done.
  destruct (step_after_return c s s' r0 Ec E) as [-> _]. done.
Qed.
End MachineFacts.

(** ** Entering the concurrent part of UploadDir *)

Lemma UploadDir_enters w g bucket src dst opts gcs fmap sched :
  enters w g bucket src gcs fmap ->
  UploadDir w g bucket src dst opts sched
  = run w bucket (applyOpts emptyOp opts) fmap sched
        (start fmap (prologue (Project gcs) bucket src)).
Proof.
  intros (-> & Ha & Hb & Hc & Hw). unfold UploadDir.
  by rewrite Ha, Hb, Hc, Hw.
Qed.

(** Either [UploadDir] got past its sequential part, or it returned an
    error from there, with no goroutine and no upload event. *)
Lemma UploadDir_cases w g bucket src dst opts :
  (exists gcs fmap, enters w g bucket src gcs fmap)
  \/ (exists err tr,
        Forall (fun ev => isUpload ev = false) tr
        /\ forall sched,
             UploadDir w g bucket src dst opts sched = returned (Some err) tr).
Proof.
  unfold UploadDir, enters. destruct g as [gcs|].
  - destruct (NewAdminClient w (Project gcs)) as [e|] eqn:Ha.
    { right. eexists _, _. split; [|done]. by repeat constructor. }
    destruct (bucketFailure (CreateBucket w bucket)) as [e|] eqn:Hb.
    { right. eexists _, _. split; [|done]. by repeat constructor. }
    destruct (NewClient w) as [e|] eqn:Hc.
    { right. eexists _, _. split; [|done]. by repeat constructor. }
    destruct (walkRecursive w src) as [fmap|e] eqn:Hw.
    + left. by exists gcs, fmap.
    + right. eexists _, _. split; [|done]. by repeat constructor.
  - right. eexists _, _. split; [|done]. constructor.
Qed.

(** A run only ever appends to the trace. *)
Lemma run_trace_prefix w bucket ret fmap sched s :
  exists tl, trace (run w bucket ret fmap sched s) = trace s ++ tl.
Proof.
  revert s. induction sched as [|c sched IH]; intros s; simpl.
  - exists []. by rewrite app_nil_r.
  - destruct (step w bucket ret fmap c s) as [s'|] eqn:E; [|apply IH].
    destruct (IH s') as [tl ->].
    assert (exists t1, trace s' = trace s ++ t1) as [t1 ->].
    { destruct s as [co ps tr]. destruct c as [|i|i]; simpl in E.
      - destruct co as [[|[source destination] rest]|cnt num|r];
          simplify_eq/=; try (by exists []; rewrite app_nil_r).
        destruct (Nat.eqb cnt num); simplify_eq/=. eauto.
      - destruct (ps !! i) as [g|]; [|done].
        destruct (next w bucket ret g) as [[ev|sg]|]; simplify_eq/=. eauto.
      - destruct co as [rest|cnt num|r]; try done.
        destruct (ps !! i) as [g|]; [|done].
        destruct (Nat.eqb cnt num); [done|].
        destruct (next w bucket ret g) as [[ev|[|err]]|]; simplify_eq/=;
          [by exists []; rewrite app_nil_r|eauto]. }
    exists (t1 ++ tl). by rewrite app_assoc.
Qed.

(** An event is not in an explicit list of events that all differ from it. *)
Ltac not_in_list :=
  simpl;
  repeat (apply not_elem_of_cons; split; [discriminate|]);
  apply not_elem_of_nil.

(** * The claims *)

(** C9. A nil [*GoogleCloudStorage] receiver makes both [UploadFile] and
    [UploadDir] return the error "GoogleCloudStorage is nil" at once:
    the trace is empty (no client, bucket, walker, file or sink call)
    and, for [UploadDir], no goroutine exists, under every schedule. *)
Theorem nil_receiver_returns_error :
  forall w bucket src dst opts,
    UploadFile w None bucket src dst opts
    = (Some (Errorf "GoogleCloudStorage is nil"), [])
    /\ forall sched,
         let s := UploadDir w None bucket src dst opts sched in
         result s = Some (Some (Errorf "GoogleCloudStorage is nil"))
         /\ trace s = [] /\ procs s = [].
Proof. intros. split; [reflexivity|]. intros sched. by repeat split. Qed.

(** C10. [UploadFile] provisions the bucket too: once the admin client
    exists, its second call is create-bucket, ahead of the data client,
    the writer, the file read and every write.  A create-bucket error
    without the "already own" text is returned, and the trace then holds
    nothing but the admin client, the create-bucket call and the deferred
    admin close; with that text the function goes on to build the data
    client. *)
Theorem UploadFile_provisions_bucket_first :
  forall w gcs bucket src dst opts,
    NewAdminClient w (Project gcs) = None ->
    let out := UploadFile w (Some gcs) bucket src dst opts in
    (exists tl,
        out.2 = [EvNewAdminClient (Project gcs); EvCreateBucket bucket] ++ tl
        /\ EvCreateBucket bucket ∉ tl)
    /\ (forall err,
          CreateBucket w bucket = Some err ->
          Contains (Error err) alreadyOwned = false ->
          out = (Some err, [EvNewAdminClient (Project gcs);
                            EvCreateBucket bucket; EvAdminClose]))
    /\ (forall err,
          CreateBucket w bucket = Some err ->
          Contains (Error err) alreadyOwned = true ->
          exists tl,
            out.2 = [EvNewAdminClient (Project gcs); EvCreateBucket bucket;
                     EvNewClient] ++ tl).
Proof.
  intros w gcs bucket src dst opts Ha out. subst out. unfold UploadFile.
  rewrite Ha. split; [|split].
  - destruct (bucketFailure (CreateBucket w bucket)); [eexists; split; [done|not_in_list]|].
    destruct (NewClient w); [eexists; split; [done|not_in_list]|].
    destruct (String.eqb _ _), (ReadFile w src) as [bts|];
      try destruct (Write w bucket dst bts); try destruct (Close w bucket dst);
      (eexists; split; [done|not_in_list]).
  - intros err Hb Hc. unfold bucketFailure. by rewrite Hb, Hc.
  - intros err Hb Hc. unfold bucketFailure. rewrite Hb, Hc. simpl.
    destruct (NewClient w); [by eexists|].
    destruct (String.eqb _ _), (ReadFile w src) as [bts|];
      try destruct (Write w bucket dst bts); try destruct (Close w bucket dst);
      by eexists.
Qed.

(** C4. With the admin client built and create-bucket failing with
    [err]: if the text of [err] contains "You already own this bucket.
    Please select another name", [UploadFile] and [UploadDir] behave
    exactly as in the world where create-bucket succeeds (same result,
    same trace, same goroutines, under every schedule); otherwise both
    return [err] itself after the create-bucket call, running only the
    deferred admin close. *)
Theorem already_owned_is_success :
  forall w gcs bucket src dst opts err,
    NewAdminClient w (Project gcs) = None ->
    CreateBucket w bucket = Some err ->
    (Contains (Error err) alreadyOwned = true ->
       UploadFile w (Some gcs) bucket src dst opts
       = UploadFile (withCreateBucket w None) (Some gcs) bucket src dst opts
       /\ forall sched,
            UploadDir w (Some gcs) bucket src dst opts sched
            = UploadDir (withCreateBucket w None) (Some gcs) bucket src dst
                        opts sched)
    /\ (Contains (Error err) alreadyOwned = false ->
          UploadFile w (Some gcs) bucket src dst opts
          = (Some err, [EvNewAdminClient (Project gcs);
                        EvCreateBucket bucket; EvAdminClose])
          /\ forall sched,
               UploadDir w (Some gcs) bucket src dst opts sched
               = returned (Some err) [EvNewAdminClient (Project gcs);
                                      EvCreateBucket bucket; EvAdminClose]).
Proof.
  intros w gcs bucket src dst opts err Ha Hb. split; intros Hc.
  - split; [|intros sched]; unfold UploadFile, UploadDir, bucketFailure;
      simpl; by rewrite Ha, Hb, Hc.
  - split; [|intros sched]; unfold UploadFile, UploadDir, bucketFailure;
      by rewrite Ha, Hb, Hc.
Qed.

Lemma app_eq_prefix {A} (p l1 l2 tl : list A) (x : A) :
  l1 ++ x :: l2 = p ++ tl -> x ∉ p -> exists k, l1 = p ++ k.
Proof.
  revert l1. induction p as [|a p IH]; intros l1 E Hx; [by exists l1|].
  destruct l1 as [|b l1]; simpl in E.
  - injection E as -> _. exfalso. apply Hx. by left.
  - injection E as -> E. destruct (IH l1 E) as [k ->].
    + intros Hin. apply Hx. by right.
    + by exists k.
Qed.

(** C5. In [UploadDir] the create-bucket call comes before every upload:
    whatever the schedule, an event that touches a sink or a local file
    has the create-bucket call earlier in the trace, and that call let
    the function go on; goroutines exist only after the whole sequential
    part (admin client, bucket, data client, walker) is in the trace.
    If create-bucket fails with an error that lacks the "already own"
    text, [UploadDir] returns that error with no goroutine, no walker
    call and no upload event. *)
Theorem provisioning_precedes_uploads :
  forall w g bucket src dst opts sched,
    let s := UploadDir w g bucket src dst opts sched in
    (forall pre ev post,
        trace s = pre ++ ev :: post -> isUpload ev = true ->
        EvCreateBucket bucket ∈ pre
        /\ bucketFailure (CreateBucket w bucket) = None)
    /\ (procs s <> [] ->
        bucketFailure (CreateBucket w bucket) = None
        /\ exists gcs tl,
            g = Some gcs /\ trace s = prologue (Project gcs) bucket src ++ tl)
    /\ (forall gcs err,
          g = Some gcs ->
          NewAdminClient w (Project gcs) = None ->
          CreateBucket w bucket = Some err ->
          Contains (Error err) alreadyOwned = false ->
          s = returned (Some err) [EvNewAdminClient (Project gcs);
                                   EvCreateBucket bucket; EvAdminClose]).
Proof.
  intros w g bucket src dst opts sched s.
  assert ((exists gcs fmap tl, enters w g bucket src gcs fmap
             /\ trace s = prologue (Project gcs) bucket src ++ tl)
          \/ (procs s = [] /\ Forall (fun ev => isUpload ev = false) (trace s)))
    as Hcases.
  { destruct (UploadDir_cases w g bucket src dst opts)
      as [(gcs & fmap & He)|(err & tr & Htr & Hret)].
    - left. exists gcs, fmap. subst s.
      rewrite (UploadDir_enters _ _ _ _ dst opts _ _ sched He).
      destruct (run_trace_prefix w bucket (applyOpts emptyOp opts) fmap sched
                  (start fmap (prologue (Project gcs) bucket src))) as [tl Htl].
      by exists tl.
    - right. subst s. by rewrite Hret. }
  split; [|split].
  - intros pre ev post E Hev.
    destruct Hcases as [(gcs & fmap & tl & He & Ht)|[_ Hno]].
    + rewrite Ht in E. symmetry in E.
      assert (ev ∉ prologue (Project gcs) bucket src) as Hnot.
      { unfold prologue. intros Hin.
        repeat (apply elem_of_cons in Hin as [->|Hin]; [done|]).
        by apply elem_of_nil in Hin. }
      destruct (app_eq_prefix _ _ _ _ _ E Hnot) as [k ->].
      split; [|by destruct He as (_ & _ & ? & _)].
      apply elem_of_app. left. unfold prologue.
      apply elem_of_cons. right. by left.
    + rewrite E in Hno. apply Forall_app in Hno as [_ Hno].
      apply Forall_cons in Hno as [Hno _]. congruence.
  - intros Hne. destruct Hcases as [(gcs & fmap & tl & He & Ht)|[Hnil _]];
      [|done].
    split; [by destruct He as (_ & _ & ? & _)|].
    exists gcs, tl. by destruct He as (-> & _).
  - intros gcs err -> Ha Hb Hc. subst s.
    unfold UploadDir, bucketFailure. by rewrite Ha, Hb, Hc.
Qed.

Lemma run_app w bucket ret fmap sched sched' s :
  run w bucket ret fmap (sched ++ sched') s
  = run w bucket ret fmap sched' (run w bucket ret fmap sched s).
Proof.
  revert s. induction sched as [|c sched IH]; intros s; simpl; [done|].
  by destruct (step w bucket ret fmap c s).
Qed.

(** ** The coordinator's loop *)

Section Coordinator.
Variables (w : World) (bucket : string) (ret : Op).
Variable fmap : list (string * string).

Local Abbreviation body := (body w bucket ret).
Local Abbreviation next := (next w bucket ret).
Local Abbreviation step := (step w bucket ret fmap).
Local Abbreviation run := (run w bucket ret fmap).
Local Abbreviation delivered := (delivered w bucket ret).
Local Abbreviation performed := (performed w bucket ret).

(** A goroutine that has not finished keeps the signals short of the
    number of goroutines. *)
Lemma unfinished_lt (l : list goroutine) i g :
  Forall (fun g => g_pc g <= length (body g)) l ->
  l !! i = Some g -> g_pc g < length (body g) ->
  length (l ≫= delivered) < length l.
Proof.
  intros Hpc Hi Hlt.
  apply list_elem_of_split_length in Hi as (l1 & l2 & -> & _).
  apply Forall_app in Hpc as [H1 H2]. apply Forall_cons in H2 as [Hg H2].
  rewrite bind_app, bind_cons, !length_app. simpl.
  pose proof (delivered_le w bucket ret l1 H1).
  pose proof (delivered_le w bucket ret l2 H2).
  destruct (delivered_cases w bucket ret g Hg) as [[_ ->]|[? _]]; simpl; lia.
Qed.

(** While a goroutine is unfinished the loop condition [cnt != num]
    holds: the coordinator is inside [select]. *)
Lemma loop_waits pre s cnt num i g :
  Inv w bucket ret fmap pre s ->
  coord s = CLoop cnt num ->
  procs s !! i = Some g -> g_pc g < length (body g) ->
  num = length fmap /\ cnt < num.
Proof.
  intros [Hpc Hk Hc _] Eco Hi Hlt. rewrite Eco in *. simpl in *.
  destruct Hc as [-> Hc]. split; [done|].
  pose proof (unfinished_lt _ _ _ Hpc Hi Hlt) as H.
  rewrite Hc, length_replicate in H.
  rewrite <- Hk, app_nil_r, length_fmap. done.
Qed.

Lemma step_keeps_signals c s s' r :
  coord s = CReturn r -> step c s = Some s' ->
  procs s' ≫= delivered = procs s ≫= delivered.
Proof.
  destruct s as [co ps tr]. simpl. intros ->.
  destruct c as [|i|i]; simpl; [done| |done].
  destruct (ps !! i) as [g|] eqn:Hi; [|done].
  destruct (next g) as [[ev|sg]|] eqn:Hn; try done.
  intros [= <-]. simpl.
  destruct (next_Do w bucket ret g ev Hn) as (_ & _ & Hd).
  destruct (lookup_insert_split ps i g (advance g) Hi)
    as (l1 & l2 & -> & -> & _).
  rewrite !bind_app, !bind_cons. by rewrite Hd.
Qed.

(** After the return nothing is received any more, whatever runs. *)
Lemma run_after_return sched s r :
  coord s = CReturn r ->
  coord (run sched s) = CReturn r
  /\ procs (run sched s) ≫= delivered = procs s ≫= delivered.
Proof.
  revert s. induction sched as [|c sched IH]; intros s Hr; simpl; [done|].
  destruct (step c s) as [s'|] eqn:E; [|by apply IH].
  destruct (step_after_return w bucket ret fmap c s s' r Hr E) as [Hr' _].
  destruct (IH s' Hr') as [-> ->]. split; [done|].
  by apply (step_keeps_signals c s s' r).
Qed.

(** The coordinator's own steps spawn the whole batch and reach the loop. *)
Lemma run_spawn rest ps tr :
  run (replicate (S (length rest)) Coordinator) (mkState (CSpawn rest) ps tr)
  = mkState (CLoop 0 (length fmap)) (ps ++ spawned rest) tr.
Proof.
  revert ps. induction rest as [|[source destination] rest IH]; intros ps.
  - simpl. by rewrite app_nil_r.
  - change (replicate (S (length ((source, destination) :: rest))) Coordinator)
      with (Coordinator :: replicate (S (length rest)) Coordinator).
    cbn [run step coord procs trace]. rewrite IH.
    by rewrite <- app_assoc.
Qed.

(** Scheduling one goroutine alone brings it to its send and no further. *)
Lemma run_goroutine k i s g :
  procs s !! i = Some g ->
  g_pc g <= length (calls (body g)) ->
  exists g',
    procs (run (replicate k (Goroutine i)) s) = <[i := g']> (procs s)
    /\ coord (run (replicate k (Goroutine i)) s) = coord s
    /\ body g' = body g
    /\ g_pc g' = (g_pc g + k) `min` length (calls (body g)).
Proof.
  revert s g. induction k as [|k IH]; intros s g Hi Hpc.
  - exists g. cbn [replicate run]. rewrite list_insert_id by done.
    repeat split; [done..|lia].
  - cbn [replicate run step]. rewrite Hi.
    destruct (next g) as [[ev|sg]|] eqn:Hn.
    + destruct (next_Do w bucket ret g ev Hn) as (Hlt & _ & _).
      rewrite (body_length w bucket ret) in Hlt.
      set (s1 := mkState (coord s) (<[i := advance g]> (procs s))
                         (trace s ++ [ev])).
      destruct (IH s1 (advance g)) as (g' & Hp & Hc & Hb & Hpc').
      { simpl. apply list_lookup_insert_eq. by apply lookup_lt_Some in Hi. }
      { change (body (advance g)) with (body g).
        change (g_pc (advance g)) with (S (g_pc g)). lia. }
      exists g'. rewrite Hp, Hc, Hb, Hpc'. cbn [procs coord s1].
      rewrite list_insert_insert_eq.
      change (body (advance g)) with (body g).
      change (g_pc (advance g)) with (S (g_pc g)).
      repeat split; [done..|lia].
    + destruct (next_Send w bucket ret g sg Hn) as (Hlen & _).
      rewrite (body_length w bucket ret) in Hlen.
      destruct (IH s g Hi Hpc) as (g' & Hp & Hc & Hb & Hpc').
      exists g'. repeat split; [done..|lia].
    + unfold next in Hn. apply lookup_ge_None in Hn.
      rewrite (body_length w bucket ret) in Hn. lia.
Qed.

Lemma calls_after_send k sg : calls (take k [Send sg]) = [].
Proof. destruct k as [|k]; [done|]. cbn [take]. by rewrite take_nil. Qed.

(** Scheduling one goroutine alone: it makes its remaining calls, in
    order, and stops in front of its send. *)
Lemma run_alone k i s g :
  procs s !! i = Some g ->
  g_pc g <= length (calls (body g)) ->
  let s' := run (replicate k (Goroutine i)) s in
  procs s'
  = <[i := mkGo (g_src g) (g_dst g)
                ((g_pc g + k) `min` length (calls (body g)))]> (procs s)
  /\ coord s' = coord s
  /\ trace s' = trace s ++ calls (take k (drop (g_pc g) (body g))).
Proof.
  revert s g. induction k as [|k IH]; intros s g Hi Hpc s'; subst s'.
  - cbn [replicate run take]. rewrite Nat.add_0_r, Nat.min_l by done.
    destruct g as [gs gd pc]. cbn [g_src g_dst g_pc].
    rewrite list_insert_id by done. by rewrite app_nil_r.
  - cbn [replicate run step]. rewrite Hi.
    destruct (next g) as [[ev|sg]|] eqn:Hn.
    + destruct (next_Do w bucket ret g ev Hn) as (Hlt & _ & _).
      rewrite (body_length w bucket ret) in Hlt.
      set (s1 := mkState (coord s) (<[i := advance g]> (procs s))
                         (trace s ++ [ev])).
      destruct (IH s1 (advance g)) as (Hp & Hc & Ht).
      { cbn [s1 procs]. apply list_lookup_insert_eq.
        by apply lookup_lt_Some in Hi. }
      { change (body (advance g)) with (body g).
        change (g_pc (advance g)) with (S (g_pc g)). lia. }
      rewrite Hp, Hc, Ht. cbn [s1 procs coord trace].
      change (body (advance g)) with (body g).
      change (g_pc (advance g)) with (S (g_pc g)).
      change (g_src (advance g)) with (g_src g).
      change (g_dst (advance g)) with (g_dst g).
      rewrite list_insert_insert_eq, Nat.add_succ_r.
      split; [done|]. split; [done|].
      rewrite (drop_S _ _ _ Hn). cbn [take].
      rewrite <- app_assoc. done.
    + destruct (next_Send w bucket ret g sg Hn) as (Hlen & _).
      destruct (IH s g Hi Hpc) as (Hp & Hc & Ht).
      rewrite Hp, Hc, Ht.
      rewrite (body_length w bucket ret) in Hlen.
      assert (drop (g_pc g) (body g) = [Send sg]) as ->.
      { rewrite (drop_S _ _ _ Hn), drop_ge; [done|].
        rewrite (body_length w bucket ret). lia. }
      rewrite !calls_after_send.
      rewrite !Nat.min_r by lia. done.
    + unfold next in Hn. apply lookup_ge_None in Hn.
      rewrite (body_length w bucket ret) in Hn. lia.
Qed.


(** Any goroutine whose verdict is an error can be the one that makes
    [UploadDir] return, before any other goroutine has taken a step. *)
Lemma rush_returns pre i source destination err :
  fmap !! i = Some (source, destination) ->
  goSignal w bucket source destination = SigErr err ->
  let s := run (rush (length fmap) i) (start fmap pre) in
  result s = Some (Some err)
  /\ forall j, j <> i -> procs s !! j = spawned fmap !! j.
Proof.
  intros Hi Hsig s. subst s. unfold rush, start.
  rewrite !run_app, run_spawn, app_nil_l.
  set (s1 := mkState (CLoop 0 (length fmap)) (spawned fmap) pre).
  assert (procs s1 !! i = Some (mkGo source destination 0)) as Hg.
  { simpl. unfold spawned. by rewrite list_lookup_fmap, Hi. }
  destruct (run_goroutine 7 i s1 _ Hg) as (g' & Hp & Hc & Hb & Hpc);
    [cbn [g_pc]; lia|].
  pose proof (goBody_length w bucket ret source destination) as Hlen.
  change (goBody w bucket ret source destination)
    with (body (mkGo source destination 0)) in Hlen.
  rewrite (body_length w bucket ret) in Hlen. cbn [g_pc] in Hpc.
  assert (g_pc g' = length (calls (body (mkGo source destination 0))))
    as Hpc' by lia.
  assert (next g' = Some (Send (SigErr err))) as Hn.
  { unfold next. rewrite Hb, Hpc', (body_at_send w bucket ret).
    unfold verdict. cbn [g_src g_dst]. by rewrite Hsig. }
  assert (i < length fmap) as Hlt by by apply lookup_lt_Some in Hi.
  destruct (run (replicate 7 (Goroutine i)) s1) as [co ps tr] eqn:Es.
  simpl in Hp, Hc. subst co ps. cbn [run step coord procs trace].
  assert (<[i := g']> (spawned fmap) !! i = Some g') as Hg'.
  { apply list_lookup_insert_eq. unfold spawned. by rewrite length_fmap. }
  rewrite Hg', Hn.
  destruct (Nat.eqb_spec 0 (length fmap)) as [E|_]; [lia|].
  split; [done|]. intros j Hj. simpl.
  rewrite list_lookup_insert_ne by done. by rewrite list_lookup_insert_ne.
Qed.

Lemma receive_needs_loop i s r :
  coord s = CReturn r -> step (Receive i) s = None.
Proof. destruct s as [co ps tr]. simpl. by intros ->. Qed.
End Coordinator.

(** When the coordinator has returned success, every goroutine has run
    to its end with the verdict [SigDone]. *)
Lemma success_all_done w bucket ret fmap pre s :
  Inv w bucket ret fmap pre s -> coord s = CReturn None ->
  Forall (fun gr => verdict w bucket gr = SigDone
                    /\ delivered w bucket ret gr = [SigDone]
                    /\ performed w bucket ret gr = calls (body w bucket ret gr))
         (procs s).
Proof.
  intros [Hpc Hk Hc _] Eco. rewrite Eco in Hk, Hc. simpl in Hk, Hc.
  assert (length (procs s ≫= delivered w bucket ret) = length (procs s)) as Hl.
  { rewrite Hc, length_replicate, <- Hk, app_nil_r, length_fmap. done. }
  pose proof (all_finished w bucket ret _ Hpc Hl) as Hfin.
  assert (Forall (fun sg => sg = SigDone) (procs s ≫= delivered w bucket ret))
    as Hall.
  { rewrite Hc. apply Forall_replicate. done. }
  apply Forall_bind in Hall.
  apply Forall_forall. intros gr Hin.
  pose proof (proj1 (Forall_forall _ _) Hfin gr Hin) as (_ & Hd & Hp).
  rewrite Forall_forall in Hall. specialize (Hall gr Hin) as Hsg.
  unfold compose in Hsg. rewrite Hd, Forall_singleton in Hsg.
  split; [done|]. split; [by rewrite Hd, Hsg|done].
Qed.

(** An error the coordinator has returned is the verdict of one of the
    goroutines. *)
Lemma returned_error_is_verdict w bucket ret fmap pre s err :
  Inv w bucket ret fmap pre s -> coord s = CReturn (Some err) ->
  exists gr, gr ∈ procs s /\ key gr ∈ fmap /\ verdict w bucket gr = SigErr err.
Proof.
  intros [Hpc Hk Hc _] Eco. rewrite Eco in Hk, Hc. simpl in Hk, Hc.
  rewrite app_nil_r in Hk. destruct Hc as (cnt & _ & Hc).
  assert (SigErr err ∈ procs s ≫= delivered w bucket ret) as Hin.
  { rewrite Hc. by left. }
  apply list_elem_of_bind in Hin as (gr & Hin & Hgr).
  exists gr. split; [done|]. split.
  - rewrite <- Hk. apply list_elem_of_fmap. by exists gr.
  - rewrite Forall_forall in Hpc.
    destruct (delivered_cases w bucket ret gr (Hpc gr Hgr))
      as [[_ Hd]|(_ & Hd & _)]; rewrite Hd in Hin.
    + by apply elem_of_nil in Hin.
    + by apply list_elem_of_singleton in Hin.
Qed.

(** When some walked entry fails and every failing entry fails with
    [err], a return of [UploadDir] can only be [err]. *)
Lemma only_failure_is_returned w bucket ret fmap pre s err r :
  Inv w bucket ret fmap pre s ->
  (exists kv, kv ∈ fmap /\ goSignal w bucket kv.1 kv.2 = SigErr err) ->
  (forall kv e, kv ∈ fmap -> goSignal w bucket kv.1 kv.2 = SigErr e -> e = err) ->
  result s = Some r -> r = Some err.
Proof.
  intros HI (kv & Hkv & Hsig) Hall Hr. unfold result in Hr.
  destruct (coord s) as [| |r0] eqn:Eco; try done. injection Hr as ->.
  destruct r as [e|].
  - destruct (returned_error_is_verdict _ _ _ _ _ _ _ HI Eco)
      as (gr & _ & Hin & Hv).
    f_equal. by apply (Hall (key gr)).
  - pose proof (success_all_done _ _ _ _ _ _ HI Eco) as Hdone.
    destruct HI as [_ Hk _ _]. rewrite Eco in Hk. simpl in Hk.
    rewrite app_nil_r in Hk. rewrite <- Hk in Hkv.
    apply list_elem_of_fmap in Hkv as (gr & -> & Hgr).
    rewrite Forall_forall in Hdone. destruct (Hdone gr Hgr) as (Hv & _).
    unfold verdict in Hv. simpl in Hsig. congruence.
Qed.

(** C1. First failure wins.  Let [UploadDir] be past its sequential part
    with the batch [fmap].
    - Take any schedule that has brought the coordinator to its loop
      while goroutine [i] stands at [errc <- err].  Whatever the other
      goroutines are doing, the coordinator can receive that signal, and
      this single step makes [UploadDir] return [err] (running only the
      two deferred closes); no other goroutine is touched or waited for.
      Whatever is scheduled afterwards, the result stays [err], no
      receive is enabled and the signals handed over stay the same.
    - For every walked entry whose read, write or close fails with
      [err] there is a schedule under which [UploadDir] returns [err]
      while no other goroutine has taken a single step.
    - When some entry fails and [err] is the only error any entry fails
      with (so, when exactly one of the tasks fails), [err] is the only
      value [UploadDir] can return. *)
Theorem first_failure_wins :
  forall w g bucket src dst opts gcs fmap,
    let ret := applyOpts emptyOp opts in
    enters w g bucket src gcs fmap ->
    (forall sched cnt num i gr err,
        let s := UploadDir w g bucket src dst opts sched in
        coord s = CLoop cnt num ->
        procs s !! i = Some gr ->
        next w bucket ret gr = Some (Send (SigErr err)) ->
        exists s',
          step w bucket ret fmap (Receive i) s = Some s'
          /\ result s' = Some (Some err)
          /\ trace s' = trace s ++ [EvClientClose; EvAdminClose]
          /\ (forall j, j <> i -> procs s' !! j = procs s !! j)
          /\ forall sched',
               let s'' := run w bucket ret fmap sched' s' in
               result s'' = Some (Some err)
               /\ (forall k, step w bucket ret fmap (Receive k) s'' = None)
               /\ procs s'' ≫= delivered w bucket ret
                  = procs s' ≫= delivered w bucket ret)
    /\ (forall i source destination err,
          fmap !! i = Some (source, destination) ->
          goSignal w bucket source destination = SigErr err ->
          let s := UploadDir w g bucket src dst opts (rush (length fmap) i) in
          result s = Some (Some err)
          /\ forall j, j <> i -> procs s !! j = spawned fmap !! j)
    /\ (forall err,
          (exists kv, kv ∈ fmap /\ goSignal w bucket kv.1 kv.2 = SigErr err) ->
          (forall kv e,
              kv ∈ fmap -> goSignal w bucket kv.1 kv.2 = SigErr e -> e = err) ->
          forall sched r,
            result (UploadDir w g bucket src dst opts sched) = Some r ->
            r = Some err).
Proof.
  intros w g bucket src dst opts gcs fmap ret He. split; [|split].
  - intros sched cnt num i gr err s Eco Hi Hn.
    assert (Inv w bucket ret fmap (prologue (Project gcs) bucket src) s) as HI.
    { subst s. rewrite (UploadDir_enters _ _ _ _ dst opts _ _ sched He).
      apply Inv_run. }
    assert (g_pc gr < length (body w bucket ret gr)) as Hlt.
    { by apply lookup_lt_Some in Hn. }
    destruct (loop_waits w bucket ret fmap _ s cnt num i gr HI Eco Hi Hlt)
      as [-> Hcnt].
    exists (mkState (CReturn (Some err)) (<[i := advance gr]> (procs s))
                    (trace s ++ failure_tail)).
    split; [|split; [done|split; [done|split]]].
    + destruct s as [co ps tr]. simpl in *. subst co. rewrite Hi, Hn.
      destruct (Nat.eqb_spec cnt (length fmap)); [lia|done].
    + intros j Hj. simpl. by apply list_lookup_insert_ne.
    + intros sched' s''.
      destruct (run_after_return w bucket ret fmap sched'
                  (mkState (CReturn (Some err))
                           (<[i := advance gr]> (procs s))
                           (trace s ++ failure_tail)) (Some err) eq_refl)
        as [Hco Hsig].
      fold s'' in Hco, Hsig. split; [|split; [|done]].
      * unfold result. by rewrite Hco.
      * intros k. by apply (receive_needs_loop _ _ _ _ _ _ (Some err)).
  - intros i source destination err Hi Hsig s. subst s.
    rewrite (UploadDir_enters _ _ _ _ dst opts _ _ _ He).
    by apply (rush_returns w bucket ret fmap _ i source destination err).
  - intros err Hone Hall sched r.
    rewrite (UploadDir_enters _ _ _ _ dst opts _ _ sched He).
    apply (only_failure_is_returned w bucket ret fmap
             (prologue (Project gcs) bucket src)); [apply Inv_run|done..].
Qed.

(** ** The empty batch *)

Lemma idle_step w bucket ret c s s' pre :
  idle (coord s) -> procs s = [] -> trace s = pre ++ coord_tail (coord s) ->
  step w bucket ret [] c s = Some s' ->
  idle (coord s') /\ procs s' = [] /\ trace s' = pre ++ coord_tail (coord s')
  /\ c = Coordinator.
Proof.
  destruct s as [co ps tr]. simpl. intros Hco -> ->.
  destruct c as [|i|i]; simpl.
  - destruct Hco as [->|[->| ->]]; simpl; [| |done].
    + intros [= <-]. simpl. split; [unfold idle; eauto|done].
    + intros [= <-]. simpl. rewrite app_nil_r.
      split; [unfold idle; eauto|done].
  - done.
  - by destruct co.
Qed.

Lemma idle_run w bucket ret sched s pre :
  idle (coord s) -> procs s = [] -> trace s = pre ++ coord_tail (coord s) ->
  let s' := run w bucket ret [] sched s in
  idle (coord s') /\ procs s' = [] /\ trace s' = pre ++ coord_tail (coord s').
Proof.
  revert s. induction sched as [|c sched IH]; intros s Hco Hps Htr; simpl;
    [done|].
  destruct (step w bucket ret [] c s) as [s'|] eqn:E; [|by apply IH].
  destruct (idle_step _ _ _ _ _ _ _ Hco Hps Htr E) as (? & ? & ? & _).
  by apply IH.
Qed.

(** C3. When the walker answers with no entry, under every schedule:
    no goroutine ever exists, the trace holds the sequential part and
    the coordinator's own closing events only (no upload call), the
    coordinator is never inside [select] (it is leaving the [range]
    loop, at the loop head with [cnt = num = 0], or returned), no
    receive and no goroutine step is ever enabled, and until it has
    returned its own step is enabled.  Its two steps give success. *)
Theorem empty_batch_returns_at_once :
  forall w g bucket src dst opts gcs,
    enters w g bucket src gcs [] ->
    let ret := applyOpts emptyOp opts in
    (forall sched,
        let s := UploadDir w g bucket src dst opts sched in
        procs s = []
        /\ idle (coord s)
        /\ trace s = prologue (Project gcs) bucket src ++ coord_tail (coord s)
        /\ (forall i, step w bucket ret [] (Receive i) s = None
                      /\ step w bucket ret [] (Goroutine i) s = None)
        /\ (result s = None ->
            exists s', step w bucket ret [] Coordinator s = Some s'))
    /\ (let s := UploadDir w g bucket src dst opts [Coordinator; Coordinator] in
        result s = Some None
        /\ trace s = prologue (Project gcs) bucket src ++ success_tail).
Proof.
  intros w g bucket src dst opts gcs He ret. split.
  - intros sched s. subst s.
    rewrite (UploadDir_enters _ _ _ _ dst opts _ _ sched He). fold ret.
    destruct (idle_run w bucket ret sched
                (start [] (prologue (Project gcs) bucket src))
                (prologue (Project gcs) bucket src))
      as (Hco & Hps & Htr); [by left|done|by rewrite app_nil_r|].
    split; [done|]. split; [done|]. split; [done|].
    destruct (run w bucket ret [] sched _) as [co ps tr]. simpl in *.
    subst ps. split.
    + intros i. split; [|done]. by destruct co.
    + unfold result. simpl.
      destruct Hco as [->|[->| ->]]; [eauto|eauto|done].
  - by rewrite (UploadDir_enters _ _ _ _ dst opts _ _ _ He).
Qed.

(** ** What a goroutine ends with *)

Lemma goSignal_done w bucket src dst :
  goSignal w bucket src dst = SigDone
  <-> exists bts, ReadFile w src = inl bts
                  /\ Write w bucket dst bts = None
                  /\ Close w bucket dst = None.
Proof.
  unfold goSignal. split.
  - destruct (ReadFile w src) as [bts|e]; [|done].
    destruct (Write w bucket dst bts) eqn:Hw; [done|].
    destruct (Close w bucket dst) eqn:Hc; [done|]. by exists bts.
  - intros (bts & -> & -> & ->). done.
Qed.


Lemma procs_pc w g bucket src dst opts sched gr :
  gr ∈ procs (UploadDir w g bucket src dst opts sched) ->
  g_pc gr <= length (body w bucket (applyOpts emptyOp opts) gr).
Proof.
  destruct (UploadDir_cases w g bucket src dst opts)
    as [(gcs & fmap & He)|(err & tr & _ & Hret)].
  - rewrite (UploadDir_enters _ _ _ _ dst opts _ _ sched He).
    intros Hin.
    pose proof (Inv_run w bucket (applyOpts emptyOp opts) fmap
                  (prologue (Project gcs) bucket src) sched) as [Hpc _ _ _].
    by apply (proj1 (Forall_forall _ _) Hpc).
  - rewrite Hret. simpl. by intros ?%elem_of_nil.
Qed.

(** C6. Every goroutine of [UploadDir], under every schedule: the code
    it runs holds exactly one send, as its last action, and that send
    carries the goroutine's verdict (a token on [donec] when read, write
    and close all succeed, otherwise the error of the first of them that
    fails, on [errc]); at every moment the goroutine has handed over
    either nothing or exactly that one signal, and it has handed it over
    exactly when it has run to its end.  While the coordinator is in its
    loop, a goroutine standing at its send can hand the signal over. *)
Theorem goroutine_signals_exactly_once :
  forall w g bucket src dst opts sched gr,
    let ret := applyOpts emptyOp opts in
    let s := UploadDir w g bucket src dst opts sched in
    gr ∈ procs s ->
    sends (body w bucket ret gr) = [verdict w bucket gr]
    /\ last (body w bucket ret gr) = Some (Send (verdict w bucket gr))
    /\ (delivered w bucket ret gr = []
        \/ delivered w bucket ret gr = [verdict w bucket gr])
    /\ (delivered w bucket ret gr = [verdict w bucket gr]
        <-> g_pc gr = length (body w bucket ret gr))
    /\ (forall fmap i cnt num sg,
          walkRecursive w src = inl fmap ->
          procs s !! i = Some gr ->
          coord s = CLoop cnt num ->
          next w bucket ret gr = Some (Send sg) ->
          sg = verdict w bucket gr
          /\ exists s', step w bucket ret fmap (Receive i) s = Some s').
Proof.
  intros w g bucket src dst opts sched gr ret s Hin.
  pose proof (procs_pc _ _ _ _ _ _ _ _ Hin) as Hpc. fold ret in Hpc.
  split; [|split; [|split; [|split]]].
  - rewrite body_split at 1. by rewrite sends_app, sends_Do.
  - rewrite body_split at 1. apply last_snoc.
  - destruct (delivered_cases w bucket ret gr Hpc) as [[_ ->]|(_ & -> & _)];
      eauto.
  - destruct (delivered_cases w bucket ret gr Hpc) as [[Hlt Hd]|(Hpc' & Hd & _)].
    + rewrite Hd. split; [done|lia].
    + by rewrite Hd.
  - intros fmap i cnt num sg Hw Hi Eco Hn.
    destruct (next_Send w bucket ret gr sg Hn) as (Hlen & Hsg & _).
    split; [done|].
    destruct (UploadDir_cases w g bucket src dst opts)
      as [(gcs & fmap' & He)|(err & tr & _ & Hret)].
    + assert (fmap' = fmap) as ->.
      { destruct He as (_ & _ & _ & _ & Hw'). congruence. }
      assert (Inv w bucket ret fmap (prologue (Project gcs) bucket src) s)
        as HI.
      { subst s. rewrite (UploadDir_enters _ _ _ _ dst opts _ _ sched He).
        apply Inv_run. }
      destruct (loop_waits w bucket ret fmap _ s cnt num i gr HI Eco Hi)
        as [-> Hcnt]; [lia|].
      destruct s as [co ps tr]. simpl in Eco, Hi. subst co. simpl.
      rewrite Hi, Hn.
      destruct (Nat.eqb_spec cnt (length fmap)); [lia|].
      destruct sg; by eexists.
    + subst s. by rewrite Hret in Eco.
Qed.

(** ** The writes of a directory upload *)

Lemma writes_body_done w bucket ret src dst :
  goSignal w bucket src dst = SigDone ->
  writes (calls (goBody w bucket ret src dst)) = fileWrite w bucket (src, dst)
  /\ length (fileWrite w bucket (src, dst)) = 1.
Proof.
  intros (bts & Hr & Hw & Hc)%goSignal_done.
  unfold goBody, fileWrite. simpl. rewrite Hr, Hw, Hc.
  by destruct (String.eqb _ _).
Qed.

Lemma omap_bind {A B C} (f : B -> option C) (h : A -> list B) (l : list A) :
  omap f (l ≫= h) = l ≫= (fun x => omap f (h x)).
Proof.
  induction l as [|x l IH]; [done|].
  by rewrite !bind_cons, omap_app, IH.
Qed.

Lemma bind_through_fmap {A B C} (k : A -> B) (h : A -> list C)
    (h' : B -> list C) (l : list A) :
  Forall (fun x => h x = h' (k x)) l -> l ≫= h = (k <$> l) ≫= h'.
Proof.
  induction 1 as [|x l Hx _ IH]; [done|].
  by rewrite fmap_cons, !bind_cons, Hx, IH.
Qed.

Lemma length_bind_ones {A B} (h : A -> list B) (l : list A) :
  Forall (fun x => length (h x) = 1) l -> length (l ≫= h) = length l.
Proof.
  induction 1 as [|x l Hx _ IH]; [done|].
  rewrite bind_cons, length_app, Hx, IH. done.
Qed.

(** C2. All-or-nothing success.  Once [UploadDir] is past its sequential
    part with the walker's batch [fmap], under every schedule:
    - the goroutines spawned so far are, in [range] order, exactly the
      entries visited so far, one per entry, so all [length fmap] of
      them exist once the loop is reached;
    - at the loop head [num] is the batch size, [cnt] is the number of
      signals received, and the coordinator leaves the loop exactly
      when [cnt = num];
    - when [UploadDir] has returned, the result is success if and only
      if every goroutine has handed over a success token;
    - on success the writes in the trace are, up to order, one per
      walked entry: the content of its source under its destination key;
    - every partial run can be continued to a return. *)
Theorem all_or_nothing_success :
  forall w g bucket src dst opts gcs fmap sched,
    enters w g bucket src gcs fmap ->
    let ret := applyOpts emptyOp opts in
    let s := UploadDir w g bucket src dst opts sched in
    (key <$> procs s) ++ unspawned (coord s) = fmap
    /\ (forall cnt num,
          coord s = CLoop cnt num ->
          num = length fmap
          /\ length (procs s) = num
          /\ cnt = length (procs s ≫= delivered w bucket ret)
          /\ ((exists s', step w bucket ret fmap Coordinator s = Some s'
                           /\ result s' = Some None)
              <-> cnt = num))
    /\ (forall r,
          result s = Some r ->
          length (procs s) = length fmap
          /\ (r = None
              <-> Forall (fun gr => delivered w bucket ret gr = [SigDone])
                         (procs s)))
    /\ (result s = Some None ->
          writes (trace s) ≡ₚ fmap ≫= fileWrite w bucket
          /\ length (writes (trace s)) = length fmap)
    /\ (exists sched' r,
          result (UploadDir w g bucket src dst opts (sched ++ sched')) = Some r).
Proof.
  intros w g bucket src dst opts gcs fmap sched He ret s.
  assert (Inv w bucket ret fmap (prologue (Project gcs) bucket src) s) as HI.
  { subst s. rewrite (UploadDir_enters _ _ _ _ dst opts _ _ sched He).
    apply Inv_run. }
  pose proof HI as [Hpc Hk Hc Ht].
  split; [done|]. split; [|split; [|split]].
  - intros cnt num Eco. rewrite Eco in Hc, Hk. simpl in Hc, Hk.
    destruct Hc as [-> Hc]. split; [done|].
    split; [by rewrite <- Hk, app_nil_r, length_fmap|].
    split; [by rewrite Hc, length_replicate|].
    destruct s as [co ps tr]. simpl in Eco. subst co. simpl.
    destruct (Nat.eqb_spec cnt (length fmap)); split; try done.
    + intros _. by eexists.
    + by intros (s' & ? & _).
  - intros r Hr. unfold result in Hr.
    destruct (coord s) as [| |r0] eqn:Eco; try done. injection Hr as ->.
    simpl in Hk. rewrite app_nil_r in Hk.
    split; [by rewrite <- Hk, length_fmap|].
    destruct r as [err|].
    + split; [done|]. intros Hall. simpl in Hc.
      destruct Hc as (cnt & _ & Hc).
      assert (SigErr err ∈ procs s ≫= delivered w bucket ret) as Hin.
      { rewrite Hc. by left. }
      apply list_elem_of_bind in Hin as (gr & Hin & Hgr).
      rewrite Forall_forall in Hall. rewrite (Hall gr Hgr) in Hin.
      by apply list_elem_of_singleton in Hin.
    + split; [intros _|done].
      eapply Forall_impl; [by apply (success_all_done _ _ _ _ _ _ HI)|].
      by intros gr (_ & ? & _).
  - intros Hr. unfold result in Hr.
    destruct (coord s) as [| |[|]] eqn:Eco; try done.
    pose proof (success_all_done _ _ _ _ _ _ HI Eco) as Hdone.
    simpl in Hk. rewrite app_nil_r in Hk.
    assert (writes (trace s) ≡ₚ fmap ≫= fileWrite w bucket) as Hw.
    { unfold writes. rewrite Ht, !omap_app, omap_bind. simpl.
      rewrite <- Hk.
      rewrite (bind_through_fmap key _ (fileWrite w bucket)); [done|].
      eapply Forall_impl; [exact Hdone|].
      intros gr (Hv & _ & ->).
      by destruct (writes_body_done w bucket ret (g_src gr) (g_dst gr) Hv). }
    split; [done|]. rewrite Hw, <- Hk, length_fmap.
    rewrite <- (bind_through_fmap key (fun gr => fileWrite w bucket (key gr)));
      [|by apply Forall_true].
    apply length_bind_ones. eapply Forall_impl; [exact Hdone|].
    intros gr (Hv & _).
    by destruct (writes_body_done w bucket ret (g_src gr) (g_dst gr) Hv).
  - destruct (returns_from w bucket ret fmap _ s HI) as (sched' & r & Hres).
    exists sched', r.
    rewrite (UploadDir_enters _ _ _ _ dst opts _ _ _ He), run_app.
    subst s. by rewrite (UploadDir_enters _ _ _ _ dst opts _ _ sched He) in Hres.
Qed.

(** ** Content type *)



Lemma goBody_set w bucket ret src dst :
  ContentType ret <> "" ->
  assignedOnce bucket dst (ContentType ret)
               (calls (goBody w bucket ret src dst)).
Proof.
  intros NE. unfold goBody.
  destruct (String.eqb_spec (ContentType ret) "") as [|_]; [done|].
  exists [EvLog ("UploadDir: " +:+ src +:+ " ---> " +:+ dst);
          EvNewWriter bucket dst].
  destruct (ReadFile w src) as [bts|];
    [destruct (Write w bucket dst bts), (Close w bucket dst)|];
    (eexists; split; [reflexivity|split; by repeat constructor]).
Qed.


(** *** The calls of one goroutine inside the interleaving *)

Lemma performed_prefix w bucket ret g :
  performed w bucket ret g `prefix_of` calls (body w bucket ret g).
Proof.
  exists (calls (drop (g_pc g) (body w bucket ret g))).
  unfold performed. by rewrite <- calls_app, take_drop.
Qed.

Lemma order_step w bucket ret fmap c s s' :
  Forall (fun g => performed w bucket ret g `sublist_of` trace s) (procs s) ->
  step w bucket ret fmap c s = Some s' ->
  Forall (fun g => performed w bucket ret g `sublist_of` trace s') (procs s').
Proof.
  destruct s as [co ps tr]. simpl. intros HP.
  assert (forall k, Forall (fun g => performed w bucket ret g
                                     `sublist_of` tr ++ k) ps) as HPk.
  { intros k. eapply Forall_impl; [exact HP|].
    intros g Hg. by apply sublist_inserts_r. }
  destruct c as [|i|i]; simpl.
  - destruct co as [[|[source destination] rest]|cnt num|r]; simpl;
      [by intros [= <-]| | |done].
    + intros [= <-]. simpl. apply Forall_app. split; [done|].
      constructor; [|constructor]. apply sublist_nil_l.
    + destruct (Nat.eqb cnt num); [|done]. intros [= <-]. simpl. apply HPk.
  - destruct (ps !! i) as [g|] eqn:Hi; [|done].
    destruct (next w bucket ret g) as [[ev|sg]|] eqn:Hn; try done.
    intros [= <-]. simpl.
    destruct (next_Do w bucket ret g ev Hn) as (_ & Hpf & _).
    destruct (lookup_insert_split ps i g (advance g) Hi)
      as (l1 & l2 & -> & -> & _).
    specialize (HPk [ev]).
    apply Forall_app in HPk as [H1 H2]. apply Forall_cons in H2 as [_ H2].
    apply Forall_app in HP as [_ HP]. apply Forall_cons in HP as [Hg _].
    apply Forall_app. split; [done|]. constructor; [|done].
    rewrite Hpf. by apply sublist_app.
  - destruct co as [rest|cnt num|r]; try done.
    destruct (ps !! i) as [g|] eqn:Hi; [|done].
    destruct (Nat.eqb cnt num); [done|].
    destruct (next w bucket ret g) as [[ev|sg]|] eqn:Hn; try done.
    destruct (next_Send w bucket ret g sg Hn) as (_ & _ & Hpf & _).
    destruct (lookup_insert_split ps i g (advance g) Hi)
      as (l1 & l2 & -> & -> & _).
    destruct sg as [|err]; intros [= <-]; simpl.
    + apply Forall_app in HP as [H1 H2]. apply Forall_cons in H2 as [Hg H2].
      apply Forall_app. split; [done|]. constructor; [|done]. by rewrite Hpf.
    + specialize (HPk failure_tail).
      apply Forall_app in HPk as [H1 H2]. apply Forall_cons in H2 as [Hg H2].
      apply Forall_app. split; [done|]. constructor; [|done]. by rewrite Hpf.
Qed.

Lemma order_run w bucket ret fmap sched s :
  Forall (fun g => performed w bucket ret g `sublist_of` trace s) (procs s) ->
  Forall (fun g => performed w bucket ret g
                   `sublist_of` trace (run w bucket ret fmap sched s))
         (procs (run w bucket ret fmap sched s)).
Proof.
  revert s. induction sched as [|c sched IH]; intros s HP; simpl; [done|].
  destruct (step w bucket ret fmap c s) as [s'|] eqn:E; [|by apply IH].
  apply IH. by apply (order_step w bucket ret fmap c s).
Qed.

Lemma bind_submseteq {A B} (f h : A -> list B) (l : list A) :
  (forall x, f x ⊆+ h x) -> l ≫= f ⊆+ l ≫= h.
Proof.
  intros Hfh. induction l as [|x l IH]; [done|].
  rewrite !bind_cons. by apply submseteq_app.
Qed.

(** *** From the options to the sinks *)


(** The code of a goroutine opens its writer, and assigns the content
    type once exactly when the options carry one. *)
Lemma goBody_opens w bucket ret src dst :
  EvNewWriter bucket dst ∈ calls (goBody w bucket ret src dst).
Proof.
  unfold goBody.
  destruct (String.eqb _ _), (ReadFile w src) as [bts|];
    [destruct (Write w bucket dst bts), (Close w bucket dst)| |
     destruct (Write w bucket dst bts), (Close w bucket dst)| ];
    simpl; right; by left.
Qed.











(** ** Where a returned error comes from *)





(** ** No call is repeated *)






(** * Worked runs *)

(** The scenario of the two-file tree: both goroutines deliver, then
    [UploadDir] returns success with one write per file. *)
Example two_files_succeed :
  let s := UploadDir Samples.fine (Some Samples.gcs) "bk" "/d" "" []
                     Samples.roundRobin in
  result s = Some None
  /\ writes (trace s)
     = [("bk", "a.txt", Samples.data "/d/a.txt");
        ("bk", "sub/b.txt", Samples.data "/d/sub/b.txt")].
Proof. vm_compute. by split. Qed.

(** Before the second token arrives the coordinator is still waiting. *)
Example one_token_is_not_enough :
  let s := UploadDir Samples.fine (Some Samples.gcs) "bk" "/d" "" []
                     (take 14 Samples.roundRobin ++ [Coordinator]) in
  result s = None /\ coord s = CLoop 1 2.
Proof. vm_compute. by split. Qed.

(** /d/a.txt cannot be read: its goroutine's error is returned while the
    other goroutine has not made a single call, and that goroutine then
    runs on by itself but can never hand over its token. *)
Example failure_leaves_the_other_running :
  let s := UploadDir Samples.unreadable (Some Samples.gcs) "bk" "/d" "" []
                     (Samples.untilSend ++ [Receive 0]) in
  let s' := UploadDir Samples.unreadable (Some Samples.gcs) "bk" "/d" "" []
                      (Samples.untilSend ++ [Receive 0]
                       ++ replicate 9 (Goroutine 1) ++ [Receive 1]) in
  result s = Some (Some Samples.denied)
  /\ procs s !! 1 = Some (mkGo "/d/sub/b.txt" "sub/b.txt" 0)
  /\ result s' = Some (Some Samples.denied)
  /\ procs s' !! 1 = Some (mkGo "/d/sub/b.txt" "sub/b.txt" 5)
  /\ next Samples.unreadable "bk" emptyOp (mkGo "/d/sub/b.txt" "sub/b.txt" 5)
     = Some (Send SigDone).
Proof. vm_compute. by repeat split. Qed.

(** [strings.Contains] on the two sample create-bucket errors. *)
Example contains_samples :
  Contains (Error Samples.conflict) alreadyOwned = true
  /\ Contains (Error Samples.forbidden) alreadyOwned = false
  /\ Contains "abc" "" = true /\ Contains "" "a" = false.
Proof. vm_compute. by repeat split. Qed.

(** * The claims at concrete inputs *)

(** C1 on the tree whose first file cannot be read: goroutine 0 stands
    at its send while goroutine 1 has not started. *)
Lemma first_failure_wins_witness :
  let s := UploadDir Samples.unreadable (Some Samples.gcs) "bk" "/d" "" []
                     Samples.untilSend in
  enters Samples.unreadable (Some Samples.gcs) "bk" "/d" Samples.gcs
         Samples.tree
  /\ coord s = CLoop 0 2
  /\ procs s !! 0 = Some (mkGo "/d/a.txt" "a.txt" 3)
  /\ procs s !! 1 = Some (mkGo "/d/sub/b.txt" "sub/b.txt" 0)
  /\ (exists s',
        step Samples.unreadable "bk" emptyOp Samples.tree (Receive 0) s
        = Some s'
        /\ result s' = Some (Some Samples.denied))
  /\ result (UploadDir Samples.unreadable (Some Samples.gcs) "bk" "/d" "" []
                       (rush 2 0))
     = Some (Some Samples.denied).
Proof.
  intros s.
  assert (enters Samples.unreadable (Some Samples.gcs) "bk" "/d" Samples.gcs
                 Samples.tree) as He by (by repeat split).
  split; [exact He|]. split; [reflexivity|]. split; [reflexivity|].
  split; [reflexivity|].
  destruct (first_failure_wins Samples.unreadable (Some Samples.gcs) "bk" "/d"
              "" [] Samples.gcs Samples.tree He) as (Hstep & Hrush & _).
  split.
  - destruct (Hstep Samples.untilSend 0 2 0 (mkGo "/d/a.txt" "a.txt" 3)
                Samples.denied eq_refl eq_refl eq_refl) as (s' & Hs & Hr & _).
    exists s'. split; [exact Hs|exact Hr].
  - exact (proj1 (Hrush 0 "/d/a.txt" "a.txt" Samples.denied eq_refl eq_refl)).
Defined.

(** C2 on the two-file tree after a complete run. *)
Lemma all_or_nothing_success_witness :
  let s := UploadDir Samples.fine (Some Samples.gcs) "bk" "/d" "" []
                     Samples.roundRobin in
  enters Samples.fine (Some Samples.gcs) "bk" "/d" Samples.gcs Samples.tree
  /\ result s = Some None
  /\ writes (trace s) ≡ₚ Samples.tree ≫= fileWrite Samples.fine "bk"
  /\ length (writes (trace s)) = 2.
Proof.
  intros s.
  assert (enters Samples.fine (Some Samples.gcs) "bk" "/d" Samples.gcs
                 Samples.tree) as He by (by repeat split).
  split; [exact He|]. split; [reflexivity|].
  destruct (all_or_nothing_success Samples.fine (Some Samples.gcs) "bk" "/d"
              "" [] Samples.gcs Samples.tree Samples.roundRobin He)
    as (_ & _ & _ & Hw & _).
  exact (Hw eq_refl).
Defined.

(** C3 on the empty directory. *)
Lemma empty_batch_returns_at_once_witness :
  enters Samples.bare (Some Samples.gcs) "bk" "/d" Samples.gcs []
  /\ forall sched,
       procs (UploadDir Samples.bare (Some Samples.gcs) "bk" "/d" "" [] sched)
       = [].
Proof.
  assert (enters Samples.bare (Some Samples.gcs) "bk" "/d" Samples.gcs [])
    as He by (by repeat split).
  split; [exact He|]. intros sched.
  destruct (empty_batch_returns_at_once Samples.bare (Some Samples.gcs) "bk"
              "/d" "" [] Samples.gcs He) as [H _].
  exact (proj1 (H sched)).
Defined.

(** C4 on a create-bucket conflict that says the bucket is ours. *)
Lemma already_owned_is_success_witness :
  NewAdminClient (Samples.refusing Samples.conflict) (Project Samples.gcs)
  = None
  /\ CreateBucket (Samples.refusing Samples.conflict) "bk"
     = Some Samples.conflict
  /\ Contains (Error Samples.conflict) alreadyOwned = true
  /\ UploadFile (Samples.refusing Samples.conflict) (Some Samples.gcs)
                "bk" "/d/a.txt" "a.txt" []
     = UploadFile (withCreateBucket (Samples.refusing Samples.conflict) None)
                  (Some Samples.gcs) "bk" "/d/a.txt" "a.txt" [].
Proof.
  split; [reflexivity|]. split; [reflexivity|]. split; [reflexivity|].
  destruct (already_owned_is_success (Samples.refusing Samples.conflict)
              Samples.gcs "bk" "/d/a.txt" "a.txt" [] Samples.conflict
              eq_refl eq_refl) as [Hown _].
  exact (proj1 (Hown eq_refl)).
Defined.

(** C5 on a create-bucket error of another kind. *)
Lemma provisioning_precedes_uploads_witness :
  CreateBucket (Samples.refusing Samples.forbidden) "bk"
  = Some Samples.forbidden
  /\ Contains (Error Samples.forbidden) alreadyOwned = false
  /\ UploadDir (Samples.refusing Samples.forbidden) (Some Samples.gcs)
               "bk" "/d" "" [] Samples.roundRobin
     = returned (Some Samples.forbidden)
                [EvNewAdminClient "proj"; EvCreateBucket "bk"; EvAdminClose].
Proof.
  split; [reflexivity|]. split; [reflexivity|].
  destruct (provisioning_precedes_uploads
              (Samples.refusing Samples.forbidden) (Some Samples.gcs)
              "bk" "/d" "" [] Samples.roundRobin) as (_ & _ & H).
  exact (H Samples.gcs Samples.forbidden eq_refl eq_refl eq_refl eq_refl).
Defined.

(** C6 on the goroutine of the unreadable file. *)
Lemma goroutine_signals_exactly_once_witness :
  let gr := mkGo "/d/a.txt" "a.txt" 3 in
  gr ∈ procs (UploadDir Samples.unreadable (Some Samples.gcs) "bk" "/d" "" []
                        Samples.untilSend)
  /\ sends (body Samples.unreadable "bk" emptyOp gr)
     = [SigErr Samples.denied].
Proof.
  intros gr.
  assert (gr ∈ procs (UploadDir Samples.unreadable (Some Samples.gcs) "bk"
                                "/d" "" [] Samples.untilSend)) as Hin.
  { vm_compute. apply list_elem_of_here. }
  split; [exact Hin|].
  exact (proj1 (goroutine_signals_exactly_once Samples.unreadable
                  (Some Samples.gcs) "bk" "/d" "" [] Samples.untilSend gr Hin)).
Defined.



(** C10 on a create-bucket error of another kind. *)
Lemma UploadFile_provisions_bucket_first_witness :
  NewAdminClient (Samples.refusing Samples.forbidden) (Project Samples.gcs)
  = None
  /\ UploadFile (Samples.refusing Samples.forbidden) (Some Samples.gcs)
                "bk" "/d/a.txt" "a.txt" []
     = (Some Samples.forbidden,
        [EvNewAdminClient "proj"; EvCreateBucket "bk"; EvAdminClose]).
Proof.
  split; [reflexivity|].
  destruct (UploadFile_provisions_bucket_first
              (Samples.refusing Samples.forbidden) Samples.gcs "bk"
              "/d/a.txt" "a.txt" [] eq_refl) as (_ & H & _).
  exact (H Samples.forbidden eq_refl eq_refl).
Defined.

(** * Further properties of the uploader *)

(** ** UploadFile from end to end *)

(** X1. [UploadFile] on a non-nil receiver returns nil exactly when the
    two clients are built, create-bucket succeeds or says the bucket is
    already owned, and the file is read, written and closed without
    error.  Whatever it returns, it writes at most once, and what it
    writes is the content read from [src], to [dst] in [bucket]; on
    success that write is there. *)
Theorem UploadFile_writes_what_it_read :
  forall w gcs bucket src dst opts,
    let out := UploadFile w (Some gcs) bucket src dst opts in
    (out.1 = None
     <-> NewAdminClient w (Project gcs) = None
         /\ bucketFailure (CreateBucket w bucket) = None
         /\ NewClient w = None
         /\ goSignal w bucket src dst = SigDone)
    /\ (writes out.2 = []
        \/ exists bts, ReadFile w src = inl bts
                       /\ writes out.2 = [(bucket, dst, bts)])
    /\ (out.1 = None ->
        exists bts, ReadFile w src = inl bts
                    /\ writes out.2 = [(bucket, dst, bts)]).
Proof.
  intros w gcs bucket src dst opts out. subst out.
  unfold UploadFile, goSignal.
  destruct (NewAdminClient w (Project gcs)) as [e|];
    [split; [split; [done|by intros (? & _)]|split; [by left|done]]|].
  destruct (bucketFailure (CreateBucket w bucket)) as [e|];
    [split; [split; [done|by intros (_ & ? & _)]|split; [by left|done]]|].
  destruct (NewClient w) as [e|];
    [split; [split; [done|by intros (_ & _ & ? & _)]|split; [by left|done]]|].
  destruct (String.eqb (ContentType (applyOpts emptyOp opts)) "");
    (destruct (ReadFile w src) as [bts|e];
     [|split; [split; [done|by intros (_ & _ & _ & ?)]|split; [by left|done]]]);
    (destruct (Write w bucket dst bts) as [e|];
     [split; [split; [done|by intros (_ & _ & _ & ?)]
             |split; [right; by exists bts|done]]|]);
    (destruct (Close w bucket dst) as [e|];
     [split; [split; [done|by intros (_ & _ & _ & ?)]
             |split; [right; by exists bts|done]]|]);
    (split; [done|split; [right; by exists bts|intros _; by exists bts]]).
Qed.

(** ** Closing the clients *)

Lemma goBody_kind w bucket ret src dst :
  Forall (fun ev => isGoroutineEvent ev = true)
         (calls (goBody w bucket ret src dst)).
Proof.
  unfold goBody.
  destruct (String.eqb _ _), (ReadFile w src) as [bts|];
    [destruct (Write w bucket dst bts), (Close w bucket dst)| |
     destruct (Write w bucket dst bts), (Close w bucket dst)| ];
    by repeat constructor.
Qed.

Lemma next_Do_kind w bucket ret g ev :
  next w bucket ret g = Some (Do ev) ->
  ev ∈ calls (body w bucket ret g) /\ isGoroutineEvent ev = true.
Proof.
  unfold next. intros H.
  assert (ev ∈ calls (body w bucket ret g)) as Hin.
  { apply list_elem_of_omap. exists (Do ev). split; [|done].
    by apply list_elem_of_lookup_2 in H. }
  split; [done|].
  pose proof (goBody_kind w bucket ret (g_src g) (g_dst g)) as Hk.
  rewrite Forall_forall in Hk. by apply Hk.
Qed.

Lemma closes_app tr1 tr2 : closes (tr1 ++ tr2) = closes tr1 ++ closes tr2.
Proof. apply filter_app. Qed.

Lemma closes_goroutine_event ev :
  isGoroutineEvent ev = true -> closes [ev] = [].
Proof. by destruct ev. Qed.

(** The closes in the trace are those of the coordinator's return. *)
Lemma closes_step w bucket ret fmap c s s' :
  closes (trace s) = closes (coord_tail (coord s)) ->
  step w bucket ret fmap c s = Some s' ->
  closes (trace s') = closes (coord_tail (coord s')).
Proof.
  destruct s as [co ps tr]. simpl. intros HK.
  destruct c as [|i|i]; simpl.
  - destruct co as [[|[source destination] rest]|cnt num|r]; simpl;
      [by intros [= <-]|by intros [= <-]| |done].
    destruct (Nat.eqb cnt num); [|done]. intros [= <-]. simpl.
    by rewrite closes_app, HK.
  - destruct (ps !! i) as [g|]; [|done].
    destruct (next w bucket ret g) as [[ev|sg]|] eqn:Hn; try done.
    intros [= <-]. simpl. destruct (next_Do_kind _ _ _ _ _ Hn) as [_ Hk].
    by rewrite closes_app, closes_goroutine_event, app_nil_r.
  - destruct co as [rest|cnt num|r]; try done.
    destruct (ps !! i) as [g|]; [|done].
    destruct (Nat.eqb cnt num); [done|].
    destruct (next w bucket ret g) as [[ev|[|err]]|]; try done;
      intros [= <-]; simpl; [done|].
    by rewrite closes_app, HK.
Qed.

Lemma closes_run w bucket ret fmap sched s :
  closes (trace s) = closes (coord_tail (coord s)) ->
  closes (trace (run w bucket ret fmap sched s))
  = closes (coord_tail (coord (run w bucket ret fmap sched s))).
Proof.
  revert s. induction sched as [|c sched IH]; intros s HK; simpl; [done|].
  destruct (step w bucket ret fmap c s) as [s'|] eqn:E; [|by apply IH].
  apply IH. by apply (closes_step w bucket ret fmap c s).
Qed.

(** An explicit list ends with another explicit list. *)
Ltac at_the_end := repeat (first [reflexivity | apply suffix_cons_r]).

(** X2. Both functions close exactly the clients they built, each once,
    the data client before the admin client.  In [UploadFile] these
    closes are the last events of the trace on every path, failing or
    not.  In [UploadDir], under every schedule, no close happens while
    the coordinator has not returned, and from the return on the trace
    holds exactly the closes owed. *)
Theorem clients_closed_exactly_once :
  forall w gcs bucket src dst opts,
    let tr := (UploadFile w (Some gcs) bucket src dst opts).2 in
    closes tr = dueCloses w gcs bucket
    /\ dueCloses w gcs bucket `suffix_of` tr
    /\ forall sched,
         let s := UploadDir w (Some gcs) bucket src dst opts sched in
         closes (trace s)
         = match result s with
           | Some _ => dueCloses w gcs bucket
           | None => []
           end.
Proof.
  intros w gcs bucket src dst opts tr. subst tr.
  unfold dueCloses, clientOpened, adminOpened.
  split; [|split].
  - unfold UploadFile.
    destruct (NewAdminClient w (Project gcs)); [done|].
    destruct (bucketFailure (CreateBucket w bucket)); [done|].
    destruct (NewClient w); [done|].
    destruct (String.eqb _ _), (ReadFile w src) as [bts|];
      [destruct (Write w bucket dst bts), (Close w bucket dst)| |
       destruct (Write w bucket dst bts), (Close w bucket dst)| ]; done.
  - unfold UploadFile.
    destruct (NewAdminClient w (Project gcs)); [simpl; at_the_end|].
    destruct (bucketFailure (CreateBucket w bucket)); [simpl; at_the_end|].
    destruct (NewClient w); [simpl; at_the_end|].
    destruct (String.eqb _ _), (ReadFile w src) as [bts|];
      [destruct (Write w bucket dst bts), (Close w bucket dst)| |
       destruct (Write w bucket dst bts), (Close w bucket dst)| ];
      simpl; at_the_end.
  - intros sched. unfold UploadDir.
    destruct (NewAdminClient w (Project gcs)); [done|].
    destruct (bucketFailure (CreateBucket w bucket)); [done|].
    destruct (NewClient w); [done|].
    destruct (walkRecursive w src) as [fmap|]; [|done].
    rewrite closes_run by done. unfold result.
    by destruct (coord _) as [| |[|]].
Qed.

(** ** UploadDir always comes back *)

(** X3. Once [UploadDir] is past its sequential part it cannot hang and
    cannot run forever: under every schedule, as long as it has not
    returned some step is enabled (no deadlock between the goroutines'
    sends and the coordinator's [select]), and no sequence of enabled
    steps from the first [go] statement is longer than [8 * N + 2] for
    a batch of [N] entries. *)
Theorem UploadDir_cannot_hang :
  forall w g bucket src dst opts gcs fmap,
    let ret := applyOpts emptyOp opts in
    enters w g bucket src gcs fmap ->
    (forall sched,
        let s := UploadDir w g bucket src dst opts sched in
        result s = None ->
        exists c s', step w bucket ret fmap c s = Some s')
    /\ (forall n s',
          nsteps (fun s1 s2 => exists c, step w bucket ret fmap c s1 = Some s2)
                 n (start fmap (prologue (Project gcs) bucket src)) s' ->
          n <= 8 * length fmap + 2).
Proof.
  intros w g bucket src dst opts gcs fmap ret He. split.
  - intros sched s Hr.
    apply (progress w bucket ret fmap (prologue (Project gcs) bucket src));
      [|done].
    subst s. rewrite (UploadDir_enters _ _ _ _ dst opts _ _ sched He).
    apply Inv_run.
  - intros n s' Hn. apply (nsteps_fuel w bucket ret fmap) in Hn.
    unfold fuel at 2 in Hn. unfold start in Hn. simpl in Hn. lia.
Qed.

(** X4. Whether [UploadDir] succeeds depends on the files only, not on
    the schedule: whenever it has returned from its loop, the result is
    nil if and only if reading, writing and closing succeed for every
    walked entry.  In particular it never reports success when one file
    failed, and never reports an error when none did. *)
Theorem outcome_depends_on_files_only :
  forall w g bucket src dst opts gcs fmap,
    enters w g bucket src gcs fmap ->
    forall sched r,
      result (UploadDir w g bucket src dst opts sched) = Some r ->
      (r = None
       <-> forall kv, kv ∈ fmap -> goSignal w bucket kv.1 kv.2 = SigDone).
Proof.
  intros w g bucket src dst opts gcs fmap He sched r.
  rewrite (UploadDir_enters _ _ _ _ dst opts _ _ sched He).
  set (ret := applyOpts emptyOp opts).
  set (s := run w bucket ret fmap sched _).
  assert (Inv w bucket ret fmap (prologue (Project gcs) bucket src) s) as HI
    by apply Inv_run.
  unfold result. destruct (coord s) as [| |r0] eqn:Eco; try done.
  intros [= ->]. split.
  - intros -> kv Hkv.
    pose proof (success_all_done _ _ _ _ _ _ HI Eco) as Hdone.
    destruct HI as [_ Hk _ _]. rewrite Eco in Hk. simpl in Hk.
    rewrite app_nil_r in Hk. rewrite <- Hk in Hkv.
    apply list_elem_of_fmap in Hkv as (gr & -> & Hgr).
    rewrite Forall_forall in Hdone. by destruct (Hdone gr Hgr) as (Hv & _).
  - intros Hall. destruct r as [err|]; [|done].
    destruct (returned_error_is_verdict _ _ _ _ _ _ _ HI Eco)
      as (gr & _ & Hin & Hv).
    specialize (Hall (key gr) Hin). unfold verdict in Hv. simpl in Hall.
    congruence.
Qed.

(** ** A goroutine does what UploadFile does *)

(** X5. For one file the two code paths agree.  When [UploadFile] gets
    as far as its data client, the calls it makes on the sink and on the
    local file are, in the same order, the calls the goroutine of
    [UploadDir] makes for the same source and destination, and it
    returns nil or [err] exactly when that goroutine sends a token or
    sends [err]. *)
Theorem goroutine_matches_UploadFile :
  forall w gcs bucket src dst opts,
    let ret := applyOpts emptyOp opts in
    let out := UploadFile w (Some gcs) bucket src dst opts in
    clientOpened w gcs bucket = true ->
    uploads out.2 = uploads (calls (goBody w bucket ret src dst))
    /\ (out.1 = None <-> goSignal w bucket src dst = SigDone)
    /\ (forall err, out.1 = Some err <-> goSignal w bucket src dst = SigErr err).
Proof.
  intros w gcs bucket src dst opts ret out. subst out ret.
  unfold clientOpened, adminOpened, UploadFile, goBody, goSignal.
  destruct (NewAdminClient w (Project gcs)); [done|].
  destruct (bucketFailure (CreateBucket w bucket)); [done|].
  destruct (NewClient w); [done|]. intros _.
  destruct (String.eqb _ _), (ReadFile w src) as [bts|];
    [destruct (Write w bucket dst bts), (Close w bucket dst)| |
     destruct (Write w bucket dst bts), (Close w bucket dst)| ];
    (split; [reflexivity|split; [done|]]); intros err; simpl; split;
    congruence.
Qed.

(** ** Program order inside the interleaving *)

(** X6. Interleaving never reorders the calls of one file.  Under every
    schedule of [UploadDir], the calls a goroutine has made so far are
    an initial segment of the calls of its code (log line, open the
    writer, assign the content type if any, read, write, close), and
    they appear in the trace in exactly that order, however the calls
    of other goroutines are mixed in between. *)
Theorem goroutine_calls_keep_their_order :
  forall w g bucket src dst opts sched gr,
    let ret := applyOpts emptyOp opts in
    let s := UploadDir w g bucket src dst opts sched in
    gr ∈ procs s ->
    performed w bucket ret gr `prefix_of` calls (body w bucket ret gr)
    /\ performed w bucket ret gr `sublist_of` trace s.
Proof.
  intros w g bucket src dst opts sched gr ret s Hin.
  split; [apply performed_prefix|].
  revert Hin. subst s.
  destruct (UploadDir_cases w g bucket src dst opts)
    as [(gcs & fmap & He)|(err & tr & _ & Hret)].
  - rewrite (UploadDir_enters _ _ _ _ dst opts _ _ sched He). fold ret.
    intros Hin.
    pose proof (order_run w bucket ret fmap sched
                  (start fmap (prologue (Project gcs) bucket src))
                  (Forall_nil_2 _)) as HP.
    rewrite Forall_forall in HP. by apply HP.
  - rewrite Hret. simpl. by intros ?%elem_of_nil.
Qed.

(** ** What UploadDir writes, and where *)

Lemma goBody_upload_target w bucket ret src dst ev :
  ev ∈ calls (goBody w bucket ret src dst) ->
  (forall b d, ev = EvNewWriter b d -> b = bucket /\ d = dst)
  /\ (forall b d bts, ev = EvWrite b d bts ->
        b = bucket /\ d = dst /\ ReadFile w src = inl bts)
  /\ (forall p, ev = EvReadFile p -> p = src).
Proof.
  unfold goBody. intros Hin.
  destruct (String.eqb _ _), (ReadFile w src) as [bts|] eqn:Hr;
    [destruct (Write w bucket dst bts), (Close w bucket dst)| |
     destruct (Write w bucket dst bts), (Close w bucket dst)| ];
    simpl in Hin;
    repeat (apply elem_of_cons in Hin as [->|Hin];
            [by repeat split; intros; simplify_eq|]);
    by apply elem_of_nil in Hin.
Qed.

(** An upload call in a trace of [UploadDir] is a call of the code of a
    goroutine spawned for a walked entry. *)
Lemma upload_event_origin w g bucket src dst opts sched ev :
  ev ∈ trace (UploadDir w g bucket src dst opts sched) ->
  isUpload ev = true ->
  exists fmap source destination,
    walkRecursive w src = inl fmap
    /\ (source, destination) ∈ fmap
    /\ ev ∈ calls (goBody w bucket (applyOpts emptyOp opts) source destination).
Proof.
  destruct (UploadDir_cases w g bucket src dst opts)
    as [(gcs & fmap & He)|(err & tr & Htr & Hret)].
  - rewrite (UploadDir_enters _ _ _ _ dst opts _ _ sched He).
    set (ret := applyOpts emptyOp opts).
    pose proof (Inv_run w bucket ret fmap (prologue (Project gcs) bucket src)
                  sched) as [_ Hk _ Ht].
    set (s := run w bucket ret fmap sched _) in *.
    intros Hin Hup. rewrite Ht in Hin.
    apply elem_of_app in Hin as [Hin|Hin].
    { unfold prologue in Hin.
      repeat (apply elem_of_cons in Hin as [->|Hin]; [done|]).
      by apply elem_of_nil in Hin. }
    apply elem_of_app in Hin as [Hin|Hin].
    { destruct (coord s) as [| |[|]]; simpl in Hin;
        repeat (apply elem_of_cons in Hin as [->|Hin]; [done|]);
        by apply elem_of_nil in Hin. }
    apply list_elem_of_bind in Hin as (gr & Hin & Hgr).
    exists fmap, (g_src gr), (g_dst gr).
    split; [by destruct He as (_ & _ & _ & _ & ?)|]. split.
    + rewrite <- Hk. apply elem_of_app. left.
      apply list_elem_of_fmap. by exists gr.
    + destruct (performed_prefix w bucket ret gr) as [k Hk'].
      change (goBody w bucket ret (g_src gr) (g_dst gr))
        with (body w bucket ret gr).
      rewrite Hk'. apply elem_of_app. by left.
  - rewrite Hret. simpl. intros Hin Hup.
    rewrite Forall_forall in Htr. specialize (Htr ev Hin). congruence.
Qed.

(** X7. [UploadDir] touches nothing but the walked files, and its [dst]
    argument has no effect.  Under every schedule, on success or
    failure: every file read is a walked source; every writer is opened
    in the [bucket] argument under the destination key of a walked
    entry; every write goes to such a key and carries the content read
    from that entry's source.  Changing [dst] changes neither the
    result, nor the trace, nor the goroutines. *)
Theorem UploadDir_touches_walked_files_only :
  forall w g bucket src dst opts sched,
    let s := UploadDir w g bucket src dst opts sched in
    (forall p,
        EvReadFile p ∈ trace s ->
        exists fmap destination,
          walkRecursive w src = inl fmap /\ (p, destination) ∈ fmap)
    /\ (forall b d,
          EvNewWriter b d ∈ trace s ->
          b = bucket
          /\ exists fmap source,
               walkRecursive w src = inl fmap /\ (source, d) ∈ fmap)
    /\ (forall b d bts,
          EvWrite b d bts ∈ trace s ->
          b = bucket
          /\ exists fmap source,
               walkRecursive w src = inl fmap /\ (source, d) ∈ fmap
               /\ ReadFile w source = inl bts)
    /\ (forall dst', UploadDir w g bucket src dst' opts sched = s).
Proof.
  intros w g bucket src dst opts sched s. subst s.
  split; [|split; [|split]].
  - intros p Hin.
    destruct (upload_event_origin _ _ _ _ _ _ _ _ Hin eq_refl)
      as (fmap & source & d & Hw & Hkv & Hev).
    destruct (goBody_upload_target _ _ _ _ _ _ Hev) as (_ & _ & H).
    rewrite (H p eq_refl). by exists fmap, d.
  - intros b d Hin.
    destruct (upload_event_origin _ _ _ _ _ _ _ _ Hin eq_refl)
      as (fmap & source & d' & Hw & Hkv & Hev).
    destruct (goBody_upload_target _ _ _ _ _ _ Hev) as (H & _).
    destruct (H b d eq_refl) as [-> ->]. split; [done|].
    by exists fmap, source.
  - intros b d bts Hin.
    destruct (upload_event_origin _ _ _ _ _ _ _ _ Hin eq_refl)
      as (fmap & source & d' & Hw & Hkv & Hev).
    destruct (goBody_upload_target _ _ _ _ _ _ Hev) as (_ & H & _).
    destruct (H b d bts eq_refl) as (-> & -> & Hr). split; [done|].
    by exists fmap, source.
  - reflexivity.
Qed.

(** ** Goroutines that outlive the return *)

Section Orphans.
Variables (w : World) (bucket : string) (ret : Op).
Variable fmap : list (string * string).

Local Abbreviation body := (body w bucket ret).
Local Abbreviation next := (next w bucket ret).
Local Abbreviation step := (step w bucket ret fmap).
Local Abbreviation run := (run w bucket ret fmap).

(** After the return, a goroutine standing at its send stays there. *)
Lemma stays_at_send_step c s s' r j g sg :
  coord s = CReturn r -> procs s !! j = Some g ->
  next g = Some (Send sg) -> step c s = Some s' ->
  coord s' = CReturn r /\ procs s' !! j = Some g.
Proof.
  destruct s as [co ps tr]. simpl. intros -> Hj Hn.
  destruct c as [|i|i]; simpl; [done| |done].
  destruct (ps !! i) as [g'|] eqn:Hi; [|done].
  destruct (next g') as [[ev|sg']|] eqn:Hn'; try done.
  intros [= <-]. simpl. split; [done|].
  destruct (decide (i = j)) as [->|Hne]; [congruence|].
  by rewrite list_lookup_insert_ne.
Qed.

Lemma stays_at_send sched s r j g sg :
  coord s = CReturn r -> procs s !! j = Some g ->
  next g = Some (Send sg) ->
  coord (run sched s) = CReturn r /\ procs (run sched s) !! j = Some g.
Proof.
  revert s. induction sched as [|c sched IH]; intros s Hr Hj Hn; simpl;
    [done|].
  destruct (step c s) as [s'|] eqn:E; [|by apply IH].
  destruct (stays_at_send_step c s s' r j g sg Hr Hj Hn E) as [Hr' Hj'].
  by apply IH.
Qed.
End Orphans.

(** X8. Nothing cancels the goroutines.  Let [UploadDir] have returned
    while goroutine [j] has not finished; then the return was an error
    and both clients are already closed.  Scheduled by itself, the
    goroutine still makes every call it has left, in order, after those
    closes, and reaches its send.  From then on, whatever is scheduled,
    it stands at that send for ever with nothing handed over, and the
    result of [UploadDir] is unchanged. *)
Theorem goroutines_are_not_cancelled :
  forall w g bucket src dst opts fmap sched j gr r,
    let ret := applyOpts emptyOp opts in
    let s := UploadDir w g bucket src dst opts sched in
    walkRecursive w src = inl fmap ->
    result s = Some r ->
    procs s !! j = Some gr ->
    g_pc gr < length (body w bucket ret gr) ->
    let s1 := run w bucket ret fmap (replicate 7 (Goroutine j)) s in
    let gr1 := mkGo (g_src gr) (g_dst gr)
                    (length (calls (body w bucket ret gr))) in
    (exists err, r = Some err)
    /\ EvClientClose ∈ trace s /\ EvAdminClose ∈ trace s
    /\ trace s1 = trace s ++ calls (drop (g_pc gr) (body w bucket ret gr))
    /\ next w bucket ret gr1 = Some (Send (verdict w bucket gr))
    /\ delivered w bucket ret gr1 = []
    /\ forall sched',
         let s2 := run w bucket ret fmap sched' s1 in
         result s2 = Some r /\ procs s2 !! j = Some gr1.
Proof.
  intros w g bucket src dst opts fmap sched j gr r ret s Hw Hr Hj Hlt s1 gr1.
  destruct (UploadDir_cases w g bucket src dst opts)
    as [(gcs & fmap' & He)|(err & tr & _ & Hret)];
    [|subst s; by rewrite Hret in Hj].
  assert (fmap' = fmap) as ->.
  { destruct He as (_ & _ & _ & _ & Hw'). congruence. }
  pose proof (UploadDir_enters _ _ _ _ dst opts _ _ sched He) as Hs.
  fold s ret in Hs.
  assert (Inv w bucket ret fmap (prologue (Project gcs) bucket src) s) as HI.
  { rewrite Hs. apply Inv_run. }
  unfold result in Hr. destruct (coord s) as [| |r0] eqn:Eco; try done.
  injection Hr as ->.
  pose proof (body_length w bucket ret gr) as Hlen.
  pose proof (goBody_length w bucket ret (g_src gr) (g_dst gr)) as Hb.
  change (goBody w bucket ret (g_src gr) (g_dst gr))
    with (body w bucket ret gr) in Hb.
  assert (closes (trace s) = closes (coord_tail (CReturn r))) as Hcl.
  { rewrite <- Eco, Hs. by apply closes_run. }
  destruct (run_alone w bucket ret fmap 7 j s gr Hj) as (Hp & Hc & Ht);
    [lia|].
  fold s1 in Hp, Hc, Ht.
  rewrite Nat.min_r in Hp by lia. fold gr1 in Hp.
  rewrite take_ge in Ht by (rewrite length_drop; lia).
  assert (next w bucket ret gr1 = Some (Send (verdict w bucket gr))) as Hn.
  { apply (body_at_send w bucket ret gr). }
  split; [|split; [|split; [|split; [done|split; [done|split]]]]].
  - destruct r as [err|]; [by exists err|].
    pose proof (success_all_done _ _ _ _ _ _ HI Eco) as Hdone.
    rewrite Forall_forall in Hdone.
    destruct (Hdone gr) as (_ & Hd & _);
      [by apply list_elem_of_lookup_2 in Hj|].
    destruct HI as [Hpc _ _ _]. rewrite Forall_forall in Hpc.
    destruct (delivered_cases w bucket ret gr) as [[_ Hd']|(Hpc' & _)];
      [apply Hpc; by apply list_elem_of_lookup_2 in Hj|congruence|lia].
  - assert (EvClientClose ∈ closes (trace s)) as Hin.
    { rewrite Hcl. destruct r; simpl; by left. }
    by apply list_elem_of_filter in Hin as [_ ?].
  - assert (EvAdminClose ∈ closes (trace s)) as Hin.
    { rewrite Hcl. destruct r; simpl; right; by left. }
    by apply list_elem_of_filter in Hin as [_ ?].
  - destruct (delivered_cases w bucket ret gr1) as [[_ Hd]|(Hpc' & _)];
      [|done|].
    + change (body w bucket ret gr1) with (body w bucket ret gr).
      cbn [gr1 g_pc]. lia.
    + change (body w bucket ret gr1) with (body w bucket ret gr) in Hpc'.
      cbn [gr1 g_pc] in Hpc'. lia.
  - intros sched' s2.
    destruct (stays_at_send w bucket ret fmap sched' s1 r j gr1
                (verdict w bucket gr)) as [Hco Hpj]; [congruence| |done|].
    + rewrite Hp. apply list_lookup_insert_eq.
      by apply lookup_lt_Some in Hj.
    + fold s2 in Hco, Hpj. unfold result. by rewrite Hco.
Qed.

(** ** From the constructor to the first call *)

(** X9. [NewGoogleCloudStorage] fails exactly when the JSON key cannot
    be turned into a JWT configuration, and then with the parser's own
    error.  Otherwise the uploader it returns keeps the key, the project
    and that configuration, and it is never the nil receiver: whatever
    the arguments and the schedule, [UploadFile] and [UploadDir] on it
    begin by building the admin client for that very project. *)
Theorem NewGoogleCloudStorage_feeds_the_uploads :
  forall w key project,
    (forall err,
        NewGoogleCloudStorage w key project = inr err
        <-> JWTConfigFromJSON w key = inr err)
    /\ (forall gcs,
          NewGoogleCloudStorage w key project = inl gcs ->
          JSONKey gcs = key /\ Project gcs = project
          /\ JWTConfigFromJSON w key = inl (Config gcs)
          /\ forall bucket src dst opts,
               (exists tl,
                   (UploadFile w (Some gcs) bucket src dst opts).2
                   = EvNewAdminClient project :: tl)
               /\ forall sched,
                    exists tl,
                      trace (UploadDir w (Some gcs) bucket src dst opts sched)
                      = EvNewAdminClient project :: tl).
Proof.
  intros w key project. unfold NewGoogleCloudStorage.
  destruct (JWTConfigFromJSON w key) as [conf|e]; split.
  - done.
  - intros gcs [= <-]. simpl. repeat (split; [done|]).
    intros bucket src dst opts. split.
    + unfold UploadFile. simpl.
      destruct (NewAdminClient w project); [by eexists|].
      destruct (bucketFailure (CreateBucket w bucket)); [by eexists|].
      destruct (NewClient w); [by eexists|].
      destruct (String.eqb _ _), (ReadFile w src) as [bts|];
        [destruct (Write w bucket dst bts), (Close w bucket dst)| |
         destruct (Write w bucket dst bts), (Close w bucket dst)| ];
        by eexists.
    + intros sched. unfold UploadDir. simpl.
      destruct (NewAdminClient w project); [by eexists|].
      destruct (bucketFailure (CreateBucket w bucket)); [by eexists|].
      destruct (NewClient w); [by eexists|].
      destruct (walkRecursive w src) as [fmap|]; [|by eexists].
      destruct (run_trace_prefix w bucket (applyOpts emptyOp opts) fmap sched
                  (mkState (CSpawn fmap) []
                     [EvNewAdminClient project; EvCreateBucket bucket;
                      EvNewClient; EvWalk src])) as [tl ->].
      by eexists.
  - intros err. split; congruence.
  - done.
Qed.

(** ** Which create-bucket errors are let through *)

Lemma bucketFailure_None r :
  bucketFailure r = None
  <-> r = None
      \/ exists err a b, r = Some err /\ Error err = a +:+ alreadyOwned +:+ b.
Proof.
  unfold bucketFailure. destruct r as [e|]; [|split; [by left|done]].
  destruct (Contains (Error e) alreadyOwned) eqn:E; simpl; split.
  - intros _. right. apply Contains_spec in E as (a & b & E).
    by exists e, a, b.
  - done.
  - done.
  - intros [|(err & a & b & [= <-] & Hab)]; [done|].
    assert (Contains (Error e) alreadyOwned = true) as E'.
    { apply Contains_spec. by exists a, b. }
    congruence.
Qed.

(** X10. Which create-bucket answers let the upload go on.  With the
    admin client built, [UploadFile] and [UploadDir] (under every
    schedule) go on to build the data client exactly when create-bucket
    gave no error, or gave an error whose text has the sentence "You
    already own this bucket. Please select another name" somewhere
    inside it, with no regard to what precedes or follows the sentence
    and to the kind of the error. *)
Theorem create_bucket_tolerance_is_textual :
  forall w gcs bucket src dst opts,
    let tolerated :=
      CreateBucket w bucket = None
      \/ exists err a b,
           CreateBucket w bucket = Some err
           /\ Error err = a +:+ alreadyOwned +:+ b in
    NewAdminClient w (Project gcs) = None ->
    (EvNewClient ∈ (UploadFile w (Some gcs) bucket src dst opts).2
     <-> tolerated)
    /\ forall sched,
         EvNewClient ∈ trace (UploadDir w (Some gcs) bucket src dst opts sched)
         <-> tolerated.
Proof.
  intros w gcs bucket src dst opts tolerated Ha. subst tolerated.
  split; [|intros sched]; rewrite <- bucketFailure_None.
  - unfold UploadFile. rewrite Ha.
    destruct (bucketFailure (CreateBucket w bucket)) as [e|].
    { split; [|done]. simpl. intros Hin. exfalso. revert Hin. not_in_list. }
    split; [done|intros _].
    destruct (NewClient w);
      [simpl; apply elem_of_cons; right; apply elem_of_cons; right; by left|].
    destruct (String.eqb _ _), (ReadFile w src) as [bts|];
      [destruct (Write w bucket dst bts), (Close w bucket dst)| |
       destruct (Write w bucket dst bts), (Close w bucket dst)| ];
      simpl; apply elem_of_cons; right; apply elem_of_cons; right; by left.
  - unfold UploadDir. rewrite Ha.
    destruct (bucketFailure (CreateBucket w bucket)) as [e|].
    { split; [|done]. simpl. intros Hin. exfalso. revert Hin. not_in_list. }
    split; [done|intros _].
    destruct (NewClient w);
      [simpl; apply elem_of_cons; right; apply elem_of_cons; right; by left|].
    destruct (walkRecursive w src) as [fmap|];
      [|simpl; apply elem_of_cons; right; apply elem_of_cons; right; by left].
    destruct (run_trace_prefix w bucket (applyOpts emptyOp opts) fmap sched
                (mkState (CSpawn fmap) []
                   [EvNewAdminClient (Project gcs); EvCreateBucket bucket;
                    EvNewClient; EvWalk src])) as [tl Htl].
    simpl. simpl in Htl. rewrite Htl.
    apply elem_of_cons; right; apply elem_of_cons; right; by left.
Qed.

(** ** No file is written twice *)

Lemma writes_goBody_sub w bucket ret src dst :
  writes (calls (goBody w bucket ret src dst)) ⊆+ fileWrite w bucket (src, dst).
Proof.
  unfold goBody, fileWrite. simpl.
  destruct (String.eqb _ _), (ReadFile w src) as [bts|];
    [destruct (Write w bucket dst bts), (Close w bucket dst)| |
     destruct (Write w bucket dst bts), (Close w bucket dst)| ];
    reflexivity.
Qed.

Lemma writes_performed_sub w bucket ret g :
  writes (performed w bucket ret g) ⊆+ fileWrite w bucket (key g).
Proof.
  destruct (performed_prefix w bucket ret g) as [k Hk].
  etrans; [|apply (writes_goBody_sub w bucket ret (g_src g) (g_dst g))].
  change (goBody w bucket ret (g_src g) (g_dst g)) with (body w bucket ret g).
  rewrite Hk. unfold writes. rewrite omap_app.
  by apply submseteq_inserts_r.
Qed.

Lemma length_fileWrite_bind w bucket (l : list (string * string)) :
  length (l ≫= fileWrite w bucket) <= length l.
Proof.
  induction l as [|kv l IH]; [done|].
  rewrite bind_cons, length_app. unfold fileWrite at 1.
  destruct (ReadFile w kv.1); simpl; lia.
Qed.

(** X11. [UploadDir] never writes a file twice.  At every moment of
    every schedule, on the way to success or to failure, the writes made
    so far are, counted with multiplicity, among the writes the walked
    entries stand for (the content of each source under its destination
    key, once); so there are never more writes than walked entries. *)
Theorem no_file_is_written_twice :
  forall w g bucket src dst opts gcs fmap,
    enters w g bucket src gcs fmap ->
    forall sched,
      let s := UploadDir w g bucket src dst opts sched in
      writes (trace s) ⊆+ fmap ≫= fileWrite w bucket
      /\ length (writes (trace s)) <= length fmap.
Proof.
  intros w g bucket src dst opts gcs fmap He sched s.
  assert (writes (trace s) ⊆+ fmap ≫= fileWrite w bucket) as Hsub.
  { subst s. rewrite (UploadDir_enters _ _ _ _ dst opts _ _ sched He).
    set (ret := applyOpts emptyOp opts).
    pose proof (Inv_run w bucket ret fmap (prologue (Project gcs) bucket src)
                  sched) as [_ Hk _ Ht].
    set (s := run w bucket ret fmap sched _) in *.
    unfold writes. rewrite Ht, !omap_app, omap_bind.
    assert (omap written (coord_tail (coord s)) = []) as ->
      by (by destruct (coord s) as [| |[|]]).
    simpl. rewrite <- Hk, bind_app.
    apply submseteq_inserts_r.
    rewrite <- (bind_through_fmap key
                  (fun gr => fileWrite w bucket (key gr)) (fileWrite w bucket))
      by by apply Forall_true.
    apply bind_submseteq. intros gr. apply writes_performed_sub. }
  split; [done|].
  etrans; [by apply submseteq_length|]. apply length_fileWrite_bind.
Qed.

(** * The further properties at concrete inputs *)

(** X3 on the two-file tree, before anything has been scheduled. *)
Lemma UploadDir_cannot_hang_witness :
  enters Samples.fine (Some Samples.gcs) "bk" "/d" Samples.gcs Samples.tree
  /\ result (UploadDir Samples.fine (Some Samples.gcs) "bk" "/d" "" [] [])
     = None
  /\ exists c s',
       step Samples.fine "bk" emptyOp Samples.tree c
            (UploadDir Samples.fine (Some Samples.gcs) "bk" "/d" "" [] [])
       = Some s'.
Proof.
  assert (enters Samples.fine (Some Samples.gcs) "bk" "/d" Samples.gcs
                 Samples.tree) as He by (by repeat split).
  split; [exact He|]. split; [reflexivity|].
  destruct (UploadDir_cannot_hang Samples.fine (Some Samples.gcs) "bk" "/d"
              "" [] Samples.gcs Samples.tree He) as [H _].
  exact (H [] eq_refl).
Defined.

(** X4 on the tree whose first file cannot be read. *)
Lemma outcome_depends_on_files_only_witness :
  enters Samples.unreadable (Some Samples.gcs) "bk" "/d" Samples.gcs
         Samples.tree
  /\ result (UploadDir Samples.unreadable (Some Samples.gcs) "bk" "/d" "" []
                       (rush 2 0))
     = Some (Some Samples.denied)
  /\ ~ (forall kv, kv ∈ Samples.tree ->
          goSignal Samples.unreadable "bk" kv.1 kv.2 = SigDone).
Proof.
  assert (enters Samples.unreadable (Some Samples.gcs) "bk" "/d" Samples.gcs
                 Samples.tree) as He by (by repeat split).
  split; [exact He|]. split; [reflexivity|].
  intros Hall.
  pose proof (proj2 (outcome_depends_on_files_only Samples.unreadable
                       (Some Samples.gcs) "bk" "/d" "" [] Samples.gcs
                       Samples.tree He (rush 2 0) (Some Samples.denied)
                       eq_refl) Hall) as H.
  discriminate H.
Defined.

(** X5 on the first file of the tree. *)
Lemma goroutine_matches_UploadFile_witness :
  clientOpened Samples.fine Samples.gcs "bk" = true
  /\ uploads (UploadFile Samples.fine (Some Samples.gcs) "bk" "/d/a.txt"
                         "a.txt" []).2
     = uploads (calls (goBody Samples.fine "bk" emptyOp "/d/a.txt" "a.txt")).
Proof.
  split; [reflexivity|].
  exact (proj1 (goroutine_matches_UploadFile Samples.fine Samples.gcs "bk"
                  "/d/a.txt" "a.txt" [] eq_refl)).
Defined.

(** X6 on the goroutine of the unreadable file, standing at its send. *)
Lemma goroutine_calls_keep_their_order_witness :
  let gr := mkGo "/d/a.txt" "a.txt" 3 in
  let s := UploadDir Samples.unreadable (Some Samples.gcs) "bk" "/d" "" []
                     Samples.untilSend in
  gr ∈ procs s
  /\ performed Samples.unreadable "bk" emptyOp gr `sublist_of` trace s.
Proof.
  intros gr s.
  assert (gr ∈ procs s) as Hin.
  { vm_compute. apply list_elem_of_here. }
  split; [exact Hin|].
  exact (proj2 (goroutine_calls_keep_their_order Samples.unreadable
                  (Some Samples.gcs) "bk" "/d" "" [] Samples.untilSend gr Hin)).
Defined.

(** X8 on the tree whose first file cannot be read: the goroutine of the
    second file has not started when the error is returned. *)
Lemma goroutines_are_not_cancelled_witness :
  let s := UploadDir Samples.unreadable (Some Samples.gcs) "bk" "/d" "" []
                     (Samples.untilSend ++ [Receive 0]) in
  let gr := mkGo "/d/sub/b.txt" "sub/b.txt" 0 in
  walkRecursive Samples.unreadable "/d" = inl Samples.tree
  /\ result s = Some (Some Samples.denied)
  /\ procs s !! 1 = Some gr
  /\ g_pc gr < length (body Samples.unreadable "bk" emptyOp gr)
  /\ trace (run Samples.unreadable "bk" emptyOp Samples.tree
                (replicate 7 (Goroutine 1)) s)
     = trace s ++ calls (drop 0 (body Samples.unreadable "bk" emptyOp gr)).
Proof.
  intros s gr.
  assert (g_pc gr < length (body Samples.unreadable "bk" emptyOp gr)) as Hlt.
  { vm_compute. lia. }
  split; [reflexivity|]. split; [reflexivity|]. split; [reflexivity|].
  split; [exact Hlt|].
  destruct (goroutines_are_not_cancelled Samples.unreadable (Some Samples.gcs)
              "bk" "/d" "" [] Samples.tree (Samples.untilSend ++ [Receive 0])
              1 gr (Some Samples.denied) eq_refl eq_refl eq_refl Hlt)
    as (_ & _ & _ & Ht & _).
  exact Ht.
Defined.

(** X10 on a create-bucket conflict that says the bucket is ours. *)
Lemma create_bucket_tolerance_is_textual_witness :
  NewAdminClient (Samples.refusing Samples.conflict) (Project Samples.gcs)
  = None
  /\ EvNewClient
     ∈ (UploadFile (Samples.refusing Samples.conflict) (Some Samples.gcs)
                   "bk" "/d/a.txt" "a.txt" []).2.
Proof.
  split; [reflexivity|].
  destruct (create_bucket_tolerance_is_textual
              (Samples.refusing Samples.conflict) Samples.gcs "bk"
              "/d/a.txt" "a.txt" [] eq_refl) as [H _].
  apply (proj2 H). right.
  exists Samples.conflict, "googleapi: Error 409: ", "., conflict".
  split; reflexivity.
Defined.

(** X11 on the two-file tree after a complete run. *)
Lemma no_file_is_written_twice_witness :
  enters Samples.fine (Some Samples.gcs) "bk" "/d" Samples.gcs Samples.tree
  /\ length (writes (trace (UploadDir Samples.fine (Some Samples.gcs) "bk"
                                      "/d" "" [] Samples.roundRobin)))
     <= 2.
Proof.
  assert (enters Samples.fine (Some Samples.gcs) "bk" "/d" Samples.gcs
                 Samples.tree) as He by (by repeat split).
  split; [exact He|].
  exact (proj2 (no_file_is_written_twice Samples.fine (Some Samples.gcs) "bk"
                  "/d" "" [] Samples.gcs Samples.tree He Samples.roundRobin)).
Defined.
